(** * Xandeum pNode backend: discovery, node cache and geo summary

    A shallow embedding of [src/services/pnode.service.ts]
    (discovery through gossip, the node-set cache, single-node lookups and
    per-node stats), of the pure part of [getGeoSummary] in
    [src/services/map.service.ts], and of the last-seen status derivation
    of [scripts/verify-prpc-source.ts].

    Asynchronous functions become computations in a state-and-exception
    monad over a [World] holding the two caches and the log of the network
    requests issued so far; what the network answers is a read-only
    oracle [Net]. *)

From Stdlib Require Import ZArith List Ascii Sorted Permutation.
From stdpp Require Import gmap strings list fin_maps.

Open Scope string_scope.
Open Scope list_scope.
Open Scope Z_scope.

(** ** Data model *)

(** [status: "online" | "offline"] *)
Inductive Status := online | offline.

Global Instance Status_eq_dec : EqDecision Status.
Proof. solve_decision. Defined.

(** A raw record of the gossip listing ([Pod] of xandeum-prpc); the fields
    are the ones the repository reads. *)
Record Pod := mkPod {
  pod_pubkey : option string;
  pod_address : option string;
  pod_version : option string;
  pod_uptime : option Z;
  pod_storage_used : option Z;
  pod_storage_committed : option Z;
  pod_last_seen_timestamp : option Z
}.

(** [PNode] of [types/pnode.ts], as the README documents its JSON shape,
    with the [address] field [getNodeStatsByPubkey] reads. An absent
    optional field is [None]. *)
Record PNode := mkPNode {
  pubkey : string;
  status : Status;
  version : string;
  storageUsed : Z;
  storageTotal : Z;
  uptime : Z;
  ip : option string;
  address : option string;
  lastSeen : string;
  ramUsed : option Z;
  ramTotal : option Z
}.

(** [NodeStats]: what a node answers to [getStats()]. *)
Record NodeStats := mkNodeStats {
  cpu_percent : Z;
  ram_used : Z;
  ram_total : Z;
  active_streams : Z
}.

(** [MapNode]: [getGeoSummary] reads [country] and [region] only. *)
Record MapNode := mkMapNode {
  mn_pubkey : string;
  country : string;
  region : string;
  mn_status : Status
}.

Global Instance PNode_eq_dec : EqDecision PNode.
Proof. solve_decision. Defined.

(** A thrown value: [Error(message)]. *)
Inductive Exn := Error (message : string).

(** The answer of [getPods()] / [getPodsWithStats()]; [pods] may be
    missing, as [response.pods || []] elsewhere in the file allows. *)
Record Response := mkResponse { pods : option (list Pod) }.

(** JavaScript truthiness of a string and of an optional string. *)
Definition truthy (s : string) : bool :=
  match s with EmptyString => false | _ => true end.

Definition truthy_opt (s : option string) : bool :=
  match s with Some s => truthy s | None => false end.

(** [a || b] on optional strings. *)
Definition js_or (a b : option string) : option string :=
  if truthy_opt a then a else b.

(** [s.split(':')[0]]: the part before the first colon. *)
Fixpoint split_head (s : string) : string :=
  match s with
  | EmptyString => EmptyString
  | String c rest =>
      if Ascii.eqb c ":"%char then EmptyString else String c (split_head rest)
  end.

(** ** The world: caches, network log, network oracle *)

(** One cache entry: the value and the TTL (milliseconds) it was written
    with. *)
Record Entry (V : Type) := mkEntry { value : V; ttl : Z }.
Arguments mkEntry {V} _ _.
Arguments value {V} _.
Arguments ttl {V} _.

(** What the process does towards the network, in the order it does it:
    the clients it creates and the requests it issues. *)
Inductive NetEvent :=
| PrimaryGetPodsWithStats                       (* prpcClient.getPodsWithStats() *)
| PrimaryGetPods                                (* prpcClient.getPods() *)
| NewPrpcClient (host : string) (timeout : Z)   (* new PrpcClient(host, { timeout }) *)
| ClientGetPods (host : string)                 (* fallbackClient.getPods() *)
| ClientGetStats (host : string).               (* nodeClient.getStats() *)

Global Instance NetEvent_eq_dec : EqDecision NetEvent.
Proof. solve_decision. Defined.

(** The state a call runs in. A cache holds the entries that a [get]
    would find at that instant: an entry past its TTL is an entry that is
    not there. *)
Record World := mkWorld {
  nodeCache : gmap string (Entry (list PNode));   (* nodeCacheService *)
  statsCache : gmap string (Entry NodeStats);     (* statsCacheService *)
  netlog : list NetEvent
}.

(** What the outside answers while one call runs: a request either
    throws or returns; the fallback seeds and the nodes are told apart
    by the host the client was created for. *)
Record Net := mkNet {
  primary_getPodsWithStats : Exn + Response;
  primary_getPods : Exn + Response;
  seed_getPods : string -> Exn + Response;
  node_getStats : string -> Exn + option NodeStats
}.

(** ** The monad of asynchronous computations *)

Definition M (A : Type) : Type := World -> (Exn + A) * World.

Definition ret {A} (a : A) : M A := fun w => (inr a, w).

Definition bind {A B} (m : M A) (k : A -> M B) : M B :=
  fun w => match m w with
           | (inr a, w') => k a w'
           | (inl e, w') => (inl e, w')
           end.

Definition throw {A} (e : Exn) : M A := fun w => (inl e, w).

(** [try { m } catch (e) { h e }] *)
Definition try_catch {A} (m : M A) (h : Exn -> M A) : M A :=
  fun w => match m w with
           | (inr a, w') => (inr a, w')
           | (inl e, w') => h e w'
           end.

Declare Scope async_scope.
Delimit Scope async_scope with async.
Notation "x <- m ;; k" := (bind m (fun x => k))
  (at level 100, m at next level, right associativity) : async_scope.
Notation "m ;;; k" := (bind m (fun _ => k))
  (at level 100, right associativity) : async_scope.
Open Scope async_scope.

(** Log one network request. *)
Definition emit (e : NetEvent) : M unit :=
  fun w => (inr tt, mkWorld (nodeCache w) (statsCache w) (netlog w ++ [e])).

(** Issue a request and await its answer. *)
Definition rpc {A} (e : NetEvent) (answer : Exn + A) : M A :=
  emit e ;;; (fun w => (answer, w)).

(** [nodeCacheService.get(key)] and [.set(key, value, ttl)]. *)
Definition nodeCache_get (key : string) : M (option (list PNode)) :=
  fun w => (inr (value <$> nodeCache w !! key), w).

Definition nodeCache_set (key : string) (v : list PNode) (ttl_ms : Z) : M unit :=
  fun w => (inr tt,
            mkWorld (<[key := mkEntry v ttl_ms]> (nodeCache w)) (statsCache w) (netlog w)).

(** [statsCacheService.get(key)] and [.set(key, value, ttl)]. *)
Definition statsCache_get (key : string) : M (option NodeStats) :=
  fun w => (inr (value <$> statsCache w !! key), w).

Definition statsCache_set (key : string) (v : NodeStats) (ttl_ms : Z) : M unit :=
  fun w => (inr tt,
            mkWorld (nodeCache w) (<[key := mkEntry v ttl_ms]> (statsCache w)) (netlog w)).

(** [for (const pod of response.pods)] starts by asking [response.pods]
    for its iterator, which throws a TypeError when the field is
    missing. *)
Definition iterate (response : Response) : M (list Pod) :=
  match pods response with
  | Some ps => ret ps
  | None => throw (Error "response.pods is not iterable")
  end.

Definition CACHE_KEY : string := "pnodes".
Definition CACHE_TTL_MS : Z := 30 * 1000.

Section Service.

(** [normalizePNode] of [utils/format.ts]: it returns a node or throws. *)
Variable normalizePNode : Pod -> Exn + PNode.

(** [SEED_IPS] of [config/prpc.ts]. *)
Variable SEED_IPS : list string.

(** [enrichNodesWithCachedStats] of [services/stats-enrichment.service.ts]:
    it reads the stats cache and returns the node list with what it
    found merged in. *)
Variable enrichNodesWithCachedStats :
  gmap string (Entry NodeStats) -> list PNode -> list PNode.

Variable net : Net.

(** *** discoverPNodesViaGossip *)

(** Body of the loop over [response.pods]: the inner [try] around
    [normalizePNode], the test on [normalized.pubkey], the push. *)
Definition pushNormalized (discoveredNodes : list PNode) (pod : Pod) : list PNode :=
  match normalizePNode pod with
  | inr normalized =>
      if truthy (pubkey normalized) then discoveredNodes ++ [normalized]
      else discoveredNodes
  | inl _ => discoveredNodes
  end.

Definition normalizeAll (discoveredNodes : list PNode) (ps : list Pod) : list PNode :=
  fold_left pushNormalized ps discoveredNodes.

(** The fallback loop, [for (let i = 1; i < SEED_IPS.length &&
    discoveredNodes.length === 0; i++)], over the seeds still to try. *)
Fixpoint fallbackLoop (seeds : list string) (discoveredNodes : list PNode)
  : M (list PNode) :=
  match seeds with
  | [] => ret discoveredNodes
  | seed :: rest =>
      if (length discoveredNodes =? 0)%nat then
        step <- try_catch
                  (emit (NewPrpcClient seed 5000) ;;;
                   response <- rpc (ClientGetPods seed) (seed_getPods net seed) ;;
                   ps <- iterate response ;;
                   let discoveredNodes := normalizeAll discoveredNodes ps in
                   ret (discoveredNodes, (0 <? length discoveredNodes)%nat))
                  (fun _ => ret (discoveredNodes, false)) ;;
        let '(discoveredNodes, break) := step in
        if break then ret discoveredNodes
        else fallbackLoop rest discoveredNodes
      else ret discoveredNodes
  end.

Definition discoverPNodesViaGossip : M (list PNode) :=
  early <- try_catch
             (response <- try_catch
                            (rpc PrimaryGetPodsWithStats (primary_getPodsWithStats net))
                            (fun _ => rpc PrimaryGetPods (primary_getPods net)) ;;
              ps <- iterate response ;;
              let discoveredNodes := normalizeAll [] ps in
              if (0 <? length discoveredNodes)%nat
              then ret (discoveredNodes, true)
              else ret (discoveredNodes, false))
             (fun _ => ret ([], false)) ;;
  let '(discoveredNodes, returned) := early in
  if returned then ret discoveredNodes
  else fallbackLoop (drop 1 SEED_IPS) discoveredNodes.

(** *** getAllPNodes *)

(** Body of the deduplication loop over [nodes]; [seen] is the
    [Map<string, PNode>], [uniqueNodes] the array being filled. *)
Definition dedupStep (acc : gmap string PNode * list PNode) (node : PNode)
  : gmap string PNode * list PNode :=
  let '(seen, uniqueNodes) := acc in
  if negb (truthy (pubkey node)) then acc
  else match seen !! pubkey node with
       | Some _ => acc
       | None => (<[pubkey node := node]> seen, uniqueNodes ++ [node])
       end.

Definition dedup (nodes : list PNode) : list PNode :=
  (fold_left dedupStep nodes (∅, [])).2.

Definition enrich (nodes : list PNode) : M (list PNode) :=
  fun w => (inr (enrichNodesWithCachedStats (statsCache w) nodes), w).

Definition getAllPNodes : M (list PNode) :=
  cached <- nodeCache_get CACHE_KEY ;;
  match cached with
  | Some cached => enrich cached
  | None =>
      nodes <- discoverPNodesViaGossip ;;
      let uniqueNodes := dedup nodes in
      nodeCache_set CACHE_KEY uniqueNodes CACHE_TTL_MS ;;;
      enrich uniqueNodes
  end.

(** *** getPNodeByPubkey *)

Definition getPNodeByPubkey (key : string) : M (option PNode) :=
  nodes <- getAllPNodes ;;
  ret (find (fun node => bool_decide (pubkey node = key)) nodes).

(** *** getNodeStatsByPubkey *)

Definition STATS_CACHE_KEY (key : string) : string := "node_stats_" +:+ key.
Definition STATS_CACHE_TTL_MS : Z := 120 * 1000.

Definition getNodeStatsByPubkey (key : string) : M (option NodeStats) :=
  cached <- statsCache_get (STATS_CACHE_KEY key) ;;
  match cached with
  | Some cached => ret (Some cached)
  | None =>
      try_catch
        (node <- getPNodeByPubkey key ;;
         match node with
         | None => ret None
         | Some node =>
             if negb (bool_decide (status node = online)) then ret None
             else
               let nodeAddress := js_or (address node) (ip node) in
               match nodeAddress with
               | Some nodeAddress =>
                   if negb (truthy nodeAddress) then ret None
                   else
                     let nodeIp := split_head nodeAddress in
                     emit (NewPrpcClient nodeIp 8000) ;;;
                     stats <- rpc (ClientGetStats nodeIp) (node_getStats net nodeIp) ;;
                     match stats with
                     | Some s =>
                         statsCache_set (STATS_CACHE_KEY key) s STATS_CACHE_TTL_MS ;;;
                         ret (Some s)
                     | None => ret None
                     end
               | None => ret None
               end
         end)
        (fun _ => ret None)
  end.

End Service.

(** ** getGeoSummary *)

(** A JavaScript [Map<string, number>]: its entries in insertion order.
    [set] on a key already present keeps the key's place. *)
Fixpoint map_get (m : list (string * Z)) (k : string) : option Z :=
  match m with
  | [] => None
  | (k', v) :: m' => if decide (k' = k) then Some v else map_get m' k
  end.

Fixpoint map_set (m : list (string * Z)) (k : string) (v : Z) : list (string * Z) :=
  match m with
  | [] => [(k, v)]
  | (k', v') :: m' =>
      if decide (k' = k) then (k', v) :: m' else (k', v') :: map_set m' k v
  end.

(** [x || d] on a number that may be undefined. *)
Definition num_or (x : option Z) (d : Z) : Z :=
  match x with
  | Some v => if v =? 0 then d else v
  | None => d
  end.

(** [for (const node of mapNodes) m.set(k, (m.get(k) || 0) + 1)] with
    [k = key(node)]. *)
Definition countBy (key : MapNode -> string) (mapNodes : list MapNode)
  : list (string * Z) :=
  fold_left (fun m node => map_set m (key node) (num_or (map_get m (key node)) 0 + 1))
            mapNodes [].

(** [Array.prototype.sort(compareFn)]: a stable sort; [compareFn a b <= 0]
    leaves [a] before [b]. *)
Section Sort.
Context {A : Type} (compareFn : A -> A -> Z).

Fixpoint sort_insert (x : A) (l : list A) : list A :=
  match l with
  | [] => [x]
  | y :: l' => if compareFn x y <=? 0 then x :: l else y :: sort_insert x l'
  end.

Definition js_sort (l : list A) : list A := foldr sort_insert [] l.
End Sort.

Record CountryCount := mkCountryCount { cc_country : string; cc_count : Z }.
Record RegionCount := mkRegionCount { rc_region : string; rc_count : Z }.
Record GeoSummary := mkGeoSummary {
  countries : list CountryCount;
  regions : list RegionCount
}.

(** [getGeoSummary], from the list [getMapNodes()] resolved to. *)
Definition getGeoSummary (mapNodes : list MapNode) : GeoSummary :=
  let countryMap := countBy country mapNodes in
  let regionMap := countBy region mapNodes in
  let countries :=
    js_sort (fun a b => cc_count b - cc_count a)
            (map (fun '(country, count) => mkCountryCount country count) countryMap) in
  let regions :=
    js_sort (fun a b => rc_count b - rc_count a)
            (map (fun '(region, count) => mkRegionCount region count) regionMap) in
  mkGeoSummary countries regions.

(** ** Last-seen status (verifyPRPCSource) *)

(** [new Date(ms).getTime()]: the time value, or NaN ([None]) outside the
    range a Date can hold. *)
Definition MAX_TIME_VALUE : Z := 8640000000000000.

Definition Date_getTime (ms : Z) : option Z :=
  if Z.abs ms <=? MAX_TIME_VALUE then Some ms else None.

(** [Math.floor((now - lastSeenDate.getTime()) / 1000)], with
    [lastSeenDate = new Date(last_seen_timestamp * 1000)]; [now] is
    [Date.now()], in milliseconds. *)
Definition secondsAgo (now last_seen_timestamp : Z) : option Z :=
  match Date_getTime (last_seen_timestamp * 1000) with
  | Some t => Some ((now - t) / 1000)
  | None => None
  end.

(** [secondsAgo < 300], the five minutes that are the default of
    [ONLINE_THRESHOLD_SECONDS]; a comparison with NaN is false. *)
Definition isOnline (now last_seen_timestamp : Z) : bool :=
  match secondsAgo now last_seen_timestamp with
  | Some s => s <? 300
  | None => false
  end.

(** The status the script prints for a pod, inside
    [if (pod.last_seen_timestamp)]. [None] when none is printed: the
    timestamp is missing or zero, or the Date is invalid and
    [lastSeenDate.toISOString()] throws before the status line. *)
Definition lastSeenStatus (now : Z) (pod : Pod) : option Status :=
  match pod_last_seen_timestamp pod with
  | Some ts =>
      if ts =? 0 then None
      else
        match Date_getTime (ts * 1000) with
        | Some _ => Some (if isOnline now ts then online else offline)
        | None => None
        end
  | None => None
  end.

(** ** What an endpoint yields, and what discovery does with it

    The definitions of this part say, in the words of the specification,
    what an endpoint yields and which endpoint discovery is to take its
    nodes from; the lemmas on discovery relate the code to them. *)

Section Views.
Variable normalizePNode : Pod -> Exn + PNode.
Variable SEED_IPS : list string.
Variable net : Net.

(** The node a raw record becomes, if it is usable: normalization
    succeeded and the pubkey is not empty. *)
Definition usableNode (pod : Pod) : option PNode :=
  match normalizePNode pod with
  | inr n => if truthy (pubkey n) then Some n else None
  | inl _ => None
  end.

(** The usable nodes of an answer; none when the call failed or the
    answer has no [pods]. *)
Definition usable (answer : Exn + Response) : list PNode :=
  match answer with
  | inr {| pods := Some ps |} => omap usableNode ps
  | _ => []
  end.

(** The primary endpoint: the listing with stats, or, when that call
    throws, the plain listing. *)
Definition primaryAnswer : Exn + Response :=
  match primary_getPodsWithStats net with
  | inr r => inr r
  | inl _ => primary_getPods net
  end.

Definition primaryEvents : list NetEvent :=
  match primary_getPodsWithStats net with
  | inr _ => [PrimaryGetPodsWithStats]
  | inl _ => [PrimaryGetPodsWithStats; PrimaryGetPods]
  end.

(** The fallback endpoints in order, up to and including the first one
    that yields a usable node. *)
Fixpoint fallbackYield (seeds : list string) : list PNode :=
  match seeds with
  | [] => []
  | seed :: rest =>
      match usable (seed_getPods net seed) with
      | [] => fallbackYield rest
      | nodes => nodes
      end
  end.

Fixpoint fallbackEvents (seeds : list string) : list NetEvent :=
  match seeds with
  | [] => []
  | seed :: rest =>
      NewPrpcClient seed 5000 :: ClientGetPods seed ::
      match usable (seed_getPods net seed) with
      | [] => fallbackEvents rest
      | _ => []
      end
  end.

(** What discovery returns: the usable nodes of the primary endpoint
    when there are any, else those of the first fallback endpoint that
    has some. *)
Definition discovered : list PNode :=
  match usable primaryAnswer with
  | [] => fallbackYield (drop 1 SEED_IPS)
  | nodes => nodes
  end.

Definition discoveryEvents : list NetEvent :=
  primaryEvents ++
  match usable primaryAnswer with
  | [] => fallbackEvents (drop 1 SEED_IPS)
  | _ => []
  end.

(** Requests of a gossip listing: never a stats request, never a client
    with the stats timeout. *)
Definition gossipEvent (e : NetEvent) : Prop :=
  match e with
  | ClientGetStats _ => False
  | NewPrpcClient _ t => t = 5000
  | _ => True
  end.
End Views.

(** The nodes that are the first of the list to carry their pubkey, the
    pubkeys in [seen] counting as met before; a node with no pubkey is
    never one of them. *)
Fixpoint firstSeen (seen : gset string) (nodes : list PNode) : list PNode :=
  match nodes with
  | [] => []
  | node :: rest =>
      if truthy (pubkey node) && bool_decide (pubkey node ∉ seen)
      then node :: firstSeen ({[pubkey node]} ∪ seen) rest
      else firstSeen seen rest
  end.

(** The first node of a list that carries the pubkey [key]:
    [nodes.find((node) => node.pubkey === key)]. *)
Definition findByPubkey (key : string) (nodes : list PNode) : option PNode :=
  find (fun node => bool_decide (pubkey node = key)) nodes.

(** The number of distinct identities in a list of nodes. *)
Definition distinctIdentities (nodes : list PNode) : nat :=
  size (list_to_set (pubkey <$> nodes) : gset string).

(** The world after [evs] more requests. *)
Definition logged (w : World) (evs : list NetEvent) : World :=
  mkWorld (nodeCache w) (statsCache w) (netlog w ++ evs).

(** The request a stats fetch makes of [host], and what comes of it:
    stats that arrive are cached, anything else is null. *)
Definition fetched (net : Net) (key host : string) (w1 : World)
  : (Exn + option NodeStats) * World :=
  match node_getStats net host with
  | inr (Some s) =>
      (inr (Some s),
       mkWorld (nodeCache w1)
               (<[STATS_CACHE_KEY key := mkEntry s 120000]> (statsCache w1))
               (netlog w1 ++ [NewPrpcClient host 8000; ClientGetStats host]))
  | _ => (inr None, logged w1 [NewPrpcClient host 8000; ClientGetStats host])
  end.

(** ** Stand-ins for the parts of the repository outside [src/] *)

(** Modelled from the spec: [normalizePNode] ([utils/format.ts] is not in
    the sources at hand). "Normalize each raw record into a Node": stable
    identity, network address, version, derived status, storage used and
    capacity; a record with no identity gets the empty pubkey, which the
    caller drops. *)
Definition normalizePNode_spec (now : Z) (pod : Pod) : Exn + PNode :=
  inr {| pubkey := default EmptyString (pod_pubkey pod);
         status := match pod_last_seen_timestamp pod with
                   | Some ts => if isOnline now ts then online else offline
                   | None => offline
                   end;
         version := default "unknown" (pod_version pod);
         storageUsed := default 0 (pod_storage_used pod);
         storageTotal := default 0 (pod_storage_committed pod);
         uptime := default 0 (pod_uptime pod);
         ip := split_head <$> pod_address pod;
         address := pod_address pod;
         lastSeen := EmptyString;
         ramUsed := None;
         ramTotal := None |}.

(** Modelled from the spec: [enrichNodesWithCachedStats]
    ([services/stats-enrichment.service.ts] is not in the sources at
    hand). "Merge in any available per-node enrichment cache entries
    (stats)"; the merge "adds fields, never removes or overwrites
    discovery-derived fields". *)
Definition enrichNodesWithCachedStats_spec
    (stats : gmap string (Entry NodeStats)) (nodes : list PNode) : list PNode :=
  map (fun n =>
         match stats !! STATS_CACHE_KEY (pubkey n) with
         | Some e =>
             {| pubkey := pubkey n; status := status n; version := version n;
                storageUsed := storageUsed n; storageTotal := storageTotal n;
                uptime := uptime n; ip := ip n; address := address n;
                lastSeen := lastSeen n;
                ramUsed := Some (ram_used (value e));
                ramTotal := Some (ram_total (value e)) |}
         | None => n
         end) nodes.

(** The seed list the README gives for [config/prpc.ts]. *)
Definition SEED_IPS_README : list string :=
  ["173.212.220.65"; "161.97.97.41"; "192.190.136.36"; "192.190.136.38";
   "207.244.255.1"; "192.190.136.28"; "192.190.136.29"; "173.212.203.145"].

(** The sum of a list of counts. *)
Definition sumZ (l : list Z) : Z := foldr Z.add 0 l.

(** ** Scenarios *)

(** [Date.now()] of the scenarios: 2026-01-01T00:00:00Z. *)
Definition NOW : Z := 1767225600000.

Definition pod_at (key addr : string) (seen : Z) : Pod :=
  mkPod (Some key) (Some addr) (Some "0.8.0") (Some 86400) (Some 1024)
        (Some 4096) (Some seen).

Definition timed_out : Exn := Error "Request timed out".

Definition emptyWorld : World := mkWorld ∅ ∅ [].

(** Nothing answers. *)
Definition deadNet : Net :=
  mkNet (inl timed_out) (inl timed_out) (fun _ => inl timed_out)
        (fun _ => inl timed_out).

(** Scenario A: the primary endpoint lists three records, two of them
    with identity X and different addresses. *)
Definition batchA : list Pod :=
  [pod_at "X" "10.0.0.1:9001" 1767225500;
   pod_at "Y" "10.0.0.2:9001" 1767225500;
   pod_at "X" "10.0.0.3:9001" 1767225500].

Definition netA : Net :=
  mkNet (inr (mkResponse (Some batchA))) (inl timed_out)
        (fun _ => inl timed_out) (fun _ => inl timed_out).

(** Scenario B: the primary endpoint times out, the first fallback seed
    lists five records. *)
Definition batchB : list Pod :=
  [pod_at "A" "10.0.1.1:9001" 1767225500;
   pod_at "B" "10.0.1.2:9001" 1767225500;
   pod_at "C" "10.0.1.3:9001" 1767225500;
   pod_at "D" "10.0.1.4:9001" 1767225500;
   pod_at "E" "10.0.1.5:9001" 1767225500].

Definition netB : Net :=
  mkNet (inl timed_out) (inl timed_out)
        (fun seed => if decide (seed = "161.97.97.41")
                     then inr (mkResponse (Some batchB)) else inl timed_out)
        (fun _ => inl timed_out).

(** Scenario C: the node set is cached, X is in it and offline. *)
Definition nodeX_offline : PNode :=
  mkPNode "X" offline "0.8.0" 1024 4096 86400 (Some "10.0.0.1")
          (Some "10.0.0.1:9001") EmptyString None None.

Definition statsX : NodeStats := mkNodeStats 12 2048 8192 3.

Definition worldC : World :=
  mkWorld {[CACHE_KEY := mkEntry [nodeX_offline] 30000]} ∅ [].

(** The same, with stats of X still in the stats cache. *)
Definition worldC_warm : World :=
  mkWorld {[CACHE_KEY := mkEntry [nodeX_offline] 30000]}
          {[STATS_CACHE_KEY "X" := mkEntry statsX 120000]} [].

(** Scenario D: the node set is cached, Y is in it and online; its stats
    request is answered in [netD] and times out in [deadNet]. *)
Definition nodeY_online : PNode :=
  mkPNode "Y" online "0.8.0" 1024 4096 86400 (Some "10.0.0.2")
          (Some "10.0.0.2:9001") EmptyString None None.

Definition statsY : NodeStats := mkNodeStats 7 1024 8192 1.

Definition worldD : World :=
  mkWorld {[CACHE_KEY := mkEntry [nodeY_online] 30000]} ∅ [].

Definition netD : Net :=
  mkNet (inl timed_out) (inl timed_out) (fun _ => inl timed_out)
        (fun host => if decide (host = "10.0.0.2")
                     then inr (Some statsY) else inl timed_out).

(** Map nodes of three countries. *)
Definition mapNodesE : list MapNode :=
  [mkMapNode "A" "Germany" "Hesse" online;
   mkMapNode "B" "USA" "Virginia" online;
   mkMapNode "C" "Germany" "Bavaria" offline;
   mkMapNode "D" "France" "Hesse" online;
   mkMapNode "E" "Germany" "Hesse" online].

(** ** refreshPNodes *)

(** [nodeCacheService.delete(key)]. *)
Definition nodeCache_delete (key : string) : M unit :=
  fun w => (inr tt, mkWorld (delete key (nodeCache w)) (statsCache w) (netlog w)).

Section Refresh.
Variable normalizePNode : Pod -> Exn + PNode.
Variable SEED_IPS : list string.
Variable enrichNodesWithCachedStats :
  gmap string (Entry NodeStats) -> list PNode -> list PNode.
Variable net : Net.

Definition refreshPNodes : M (list PNode) :=
  nodeCache_delete CACHE_KEY ;;;
  getAllPNodes normalizePNode SEED_IPS enrichNodesWithCachedStats net.
End Refresh.

(** ** Computations over other stores

    The analytics listing and the geo lookups have a cache of their own
    and touch none of the above; they run over a state of their own,
    with the same sequencing and the same [try]/[catch]. *)

Definition St (E S A : Type) : Type := S -> (E + A) * S.

Definition st_ret {E S A} (a : A) : St E S A := fun s => (inr a, s).

Definition st_throw {E S A} (e : E) : St E S A := fun s => (inl e, s).

Definition st_bind {E S A B} (m : St E S A) (k : A -> St E S B) : St E S B :=
  fun s => match m s with
           | (inr a, s') => k a s'
           | (inl e, s') => (inl e, s')
           end.

(** [try { m } catch (e) { h e }] *)
Definition st_try {E S A} (m : St E S A) (h : E -> St E S A) : St E S A :=
  fun s => match m s with
           | (inr a, s') => (inr a, s')
           | (inl e, s') => h e s'
           end.

(** Await something that throws or returns, the state left alone. *)
Definition st_await {E S A} (answer : E + A) : St E S A := fun s => (answer, s).

Declare Scope st_scope.
Delimit Scope st_scope with st.
Notation "x <~ m ;; k" := (st_bind m (fun x => k))
  (at level 100, m at next level, right associativity) : st_scope.
Notation "m ;;~ k" := (st_bind m (fun _ => k))
  (at level 100, right associativity) : st_scope.
Open Scope st_scope.

(** ** getRawPodsForAnalytics *)

Record AnalyticsWorld := mkAnalyticsWorld {
  analyticsCache : gmap string (Entry (list Pod));   (* analyticsCacheService *)
  analyticsLog : list NetEvent
}.

Definition analyticsCache_get (key : string)
  : St Exn AnalyticsWorld (option (list Pod)) :=
  fun s => (inr (value <$> analyticsCache s !! key), s).

Definition analyticsCache_set (key : string) (v : list Pod) (ttl_ms : Z)
  : St Exn AnalyticsWorld unit :=
  fun s => (inr tt,
            mkAnalyticsWorld (<[key := mkEntry v ttl_ms]> (analyticsCache s))
                             (analyticsLog s)).

Definition analytics_rpc {A} (e : NetEvent) (answer : Exn + A)
  : St Exn AnalyticsWorld A :=
  (fun s => (inr tt, mkAnalyticsWorld (analyticsCache s) (analyticsLog s ++ [e])))
  ;;~ st_await answer.

Definition CACHE_KEY_ANALYTICS : string := "pods_raw_analytics".
Definition CACHE_TTL_MS_ANALYTICS : Z := 60 * 1000.

Definition getRawPodsForAnalytics (net : Net) : St Exn AnalyticsWorld (list Pod) :=
  cached <~ analyticsCache_get CACHE_KEY_ANALYTICS ;;
  match cached with
  | Some cached => st_ret cached
  | None =>
      st_try
        (response <~ analytics_rpc PrimaryGetPodsWithStats
                                   (primary_getPodsWithStats net) ;;
         let pods := default [] (pods response) in
         analyticsCache_set CACHE_KEY_ANALYTICS pods CACHE_TTL_MS_ANALYTICS ;;~
         st_ret pods)
        (fun _ =>
           response <~ analytics_rpc PrimaryGetPods (primary_getPods net) ;;
           let pods := default [] (pods response) in
           analyticsCache_set CACHE_KEY_ANALYTICS pods CACHE_TTL_MS_ANALYTICS ;;~
           st_ret pods)
  end.

(** ** extractIP *)

(** White space that [trim] removes, among the code units below 256:
    TAB, LF, VT, FF, CR, SP and NBSP. *)
Definition is_space (c : ascii) : bool :=
  let n := nat_of_ascii c in
  ((9 <=? n) && (n <=? 13) || (n =? 32) || (n =? 160))%nat.

Fixpoint trimStart (s : string) : string :=
  match s with
  | EmptyString => EmptyString
  | String c rest => if is_space c then trimStart rest else s
  end.

Fixpoint trimEnd (s : string) : string :=
  match s with
  | EmptyString => EmptyString
  | String c rest =>
      match trimEnd rest with
      | EmptyString => if is_space c then EmptyString else String c EmptyString
      | rest' => String c rest'
      end
  end.

(** [s.trim()] *)
Definition trim (s : string) : string := trimEnd (trimStart s).

(** [\d] *)
Definition is_digit (c : ascii) : bool :=
  let n := nat_of_ascii c in ((48 <=? n) && (n <=? 57))%nat.

(** The digits a string starts with, and what follows them. *)
Fixpoint span_digits (s : string) : string * string :=
  match s with
  | EmptyString => (EmptyString, EmptyString)
  | String c rest =>
      if is_digit c then
        let '(ds, after) := span_digits rest in (String c ds, after)
      else (EmptyString, s)
  end.

(** [(\d{1,3}\.){groups}\d{1,3}$] at the start of [s]. A run of digits
    can only be followed by the dot or the end when all of it is taken,
    so there is one way to match. *)
Fixpoint ipv4_groups (groups : nat) (s : string) : bool :=
  let '(ds, after) := span_digits s in
  if ((1 <=? String.length ds) && (String.length ds <=? 3))%nat then
    match groups with
    | O => match after with EmptyString => true | _ => false end
    | S groups' =>
        match after with
        | String c after' => Ascii.eqb c "."%char && ipv4_groups groups' after'
        | EmptyString => false
        end
    end
  else false.

(** [/^(\d{1,3}\.){3}\d{1,3}$/.test(s)] *)
Definition ipv4Regex_test (s : string) : bool := ipv4_groups 3 s.

Definition extractIP (address : option string) : option string :=
  if negb (truthy_opt address) then None
  else
    let ip := trim (split_head (default EmptyString address)) in
    if negb (ipv4Regex_test ip) then None else Some ip.

Fixpoint all_digits (s : string) : bool :=
  match s with
  | EmptyString => true
  | String c rest => is_digit c && all_digits rest
  end.

(** One to three digits. *)
Definition octet (s : string) : Prop :=
  (1 <= String.length s <= 3)%nat /\ all_digits s = true.

(** [groups + 1] runs of one to three digits with a dot between each
    two: what the regular expression stands for. *)
Fixpoint dotted (groups : nat) (s : string) : Prop :=
  match groups with
  | O => octet s
  | S groups' =>
      exists a rest, s = a +:+ "." +:+ rest /\ octet a /\ dotted groups' rest
  end.

Fixpoint all_chars (p : ascii -> bool) (s : string) : bool :=
  match s with
  | EmptyString => true
  | String c rest => p c && all_chars p rest
  end.

(** ** resolveIPToGeo, resolveNodeGeo *)

(** What [fetch] or [response.json()] throws: a [name] and a [message]
    that may be missing. *)
Record FetchError := mkFetchError { fe_name : string; fe_message : option string }.

(** [haystack.includes(needle)] *)
Fixpoint includes (needle haystack : string) : bool :=
  String.prefix needle haystack ||
  match haystack with
  | EmptyString => false
  | String _ rest => includes needle rest
  end.

Definition GEO_CACHE_KEY_PREFIX : string := "geo:".
Definition GEO_CACHE_TTL_MS : Z := 24 * 60 * 60 * 1000.

Definition geoUrl (ip : string) : string :=
  "http://ip-api.com/json/" +:+ ip +:+
  "?fields=status,message,country,regionName,city,lat,lon".

Section Geo.

(** JavaScript numbers are kept abstract: the code stores coordinates
    and tests them for truthiness (neither zero nor NaN); a coordinate
    that arrives as a string goes through [parseFloat]. *)
Variable number : Type.
Variable number_truthy : number -> bool.
Variable parseFloat : string -> number.

Inductive NumOrString := JNum (n : number) | JStr (s : string).

Definition numOrString_truthy (x : option NumOrString) : bool :=
  match x with
  | Some (JNum n) => number_truthy n
  | Some (JStr s) => truthy s
  | None => false
  end.

(** [typeof x === 'string' ? parseFloat(x) : x] *)
Definition toNumber (x : NumOrString) : number :=
  match x with JNum n => n | JStr s => parseFloat s end.

(** The body ip-api.com answers with. *)
Record GeoData := mkGeoData {
  gd_status : option string;
  gd_message : option string;
  gd_lat : option NumOrString;
  gd_lon : option NumOrString;
  gd_country : option string;
  gd_regionName : option string;
  gd_city : option string
}.

Record HttpResponse := mkHttpResponse {
  ok : bool;
  json : FetchError + GeoData
}.

Record GeoLocation := mkGeoLocation {
  lat : number;
  lng : number;
  geo_country : string;
  geo_region : string;
  city : option string
}.

Record GeoWorld := mkGeoWorld {
  geoCache : gmap string (Entry GeoLocation);   (* geoCacheService *)
  fetched_urls : list string                    (* the URLs given to fetch *)
}.

Definition geoCache_get (key : string) : St FetchError GeoWorld (option GeoLocation) :=
  fun s => (inr (value <$> geoCache s !! key), s).

Definition geoCache_set (key : string) (v : GeoLocation) (ttl_ms : Z)
  : St FetchError GeoWorld unit :=
  fun s => (inr tt, mkGeoWorld (<[key := mkEntry v ttl_ms]> (geoCache s)) (fetched_urls s)).

(** What [fetch(url)] comes to within the timeout: a response, or an
    exception (an [AbortError] when the timeout fires first). *)
Variable fetch : string -> FetchError + HttpResponse.

Definition geo_fetch (url : string) : St FetchError GeoWorld HttpResponse :=
  (fun s => (inr tt, mkGeoWorld (geoCache s) (fetched_urls s ++ [url])))
  ;;~ st_await (fetch url).

(** [s || d] on an optional string. *)
Definition str_or (s : option string) (d : string) : string :=
  match s with
  | Some s => if truthy s then s else d
  | None => d
  end.

(** [timeoutMs] arms the abort of the fetch; whether it fires is in what
    [fetch] answers. *)
Definition resolveIPToGeo (ip : string) (timeoutMs : Z)
  : St FetchError GeoWorld (option GeoLocation) :=
  let cacheKey := GEO_CACHE_KEY_PREFIX +:+ ip in
  cached <~ geoCache_get cacheKey ;;
  match cached with
  | Some cached => st_ret (Some cached)
  | None =>
      st_try
        (st_try
           (response <~ geo_fetch (geoUrl ip) ;;
            if negb (ok response) then st_ret None
            else
              data <~ st_await (json response) ;;
              if bool_decide (gd_status data = Some "fail") then st_ret None
              else if negb (numOrString_truthy (gd_lat data))
                      || negb (numOrString_truthy (gd_lon data))
                      || negb (truthy_opt (gd_country data))
              then st_ret None
              else
                match gd_lat data, gd_lon data with
                | Some dlat, Some dlon =>
                    let geo :=
                      {| lat := toNumber dlat;
                         lng := toNumber dlon;
                         geo_country := str_or (gd_country data) "Unknown";
                         geo_region := str_or (gd_regionName data) "Unknown";
                         city := if truthy_opt (gd_city data) then gd_city data
                                 else None |} in
                    geoCache_set cacheKey geo GEO_CACHE_TTL_MS ;;~
                    st_ret (Some geo)
                | _, _ => st_ret None
                end)
           (fun fetchError =>
              if bool_decide (fe_name fetchError = "AbortError")
                 || match fe_message fetchError with
                    | Some m => includes "timeout" m
                    | None => false
                    end
              then st_ret None
              else st_throw fetchError))
        (fun _ => st_ret None)
  end.

Definition resolveNodeGeo (address : option string) (timeoutMs : Z)
  : St FetchError GeoWorld (option GeoLocation) :=
  match extractIP address with
  | Some ip => if negb (truthy ip) then st_ret None else resolveIPToGeo ip timeoutMs
  | None => st_ret None
  end.

(** A response that passes every check of [resolveIPToGeo]. *)
Definition validGeoData (data : GeoData) : Prop :=
  gd_status data <> Some "fail" /\
  numOrString_truthy (gd_lat data) = true /\
  numOrString_truthy (gd_lon data) = true /\
  truthy_opt (gd_country data) = true.

(** The location [resolveIPToGeo] makes of a body, when the body passes
    its checks. *)
Definition acceptedGeo (data : GeoData) : option GeoLocation :=
  if bool_decide (gd_status data = Some "fail") then None
  else if negb (numOrString_truthy (gd_lat data))
          || negb (numOrString_truthy (gd_lon data))
          || negb (truthy_opt (gd_country data))
  then None
  else
    match gd_lat data, gd_lon data with
    | Some dlat, Some dlon =>
        Some {| lat := toNumber dlat;
                lng := toNumber dlon;
                geo_country := str_or (gd_country data) "Unknown";
                geo_region := str_or (gd_regionName data) "Unknown";
                city := if truthy_opt (gd_city data) then gd_city data else None |}
    | _, _ => None
    end.

(** What a lookup of [ip] comes to when the geo cache has no entry for
    it. *)
Definition lookedUp (ip : string) (s : GeoWorld)
  : (FetchError + option GeoLocation) * GeoWorld :=
  let s1 := mkGeoWorld (geoCache s) (fetched_urls s ++ [geoUrl ip]) in
  match fetch (geoUrl ip) with
  | inr response =>
      if ok response then
        match json response with
        | inr data =>
            match acceptedGeo data with
            | Some geo =>
                (inr (Some geo),
                 mkGeoWorld (<[GEO_CACHE_KEY_PREFIX +:+ ip := mkEntry geo 86400000]>
                               (geoCache s))
                            (fetched_urls s ++ [geoUrl ip]))
            | None => (inr None, s1)
            end
        | inl _ => (inr None, s1)
        end
      else (inr None, s1)
  | inl _ => (inr None, s1)
  end.

(** *** getMapNodes *)

(** What [resolveNodeGeo(address, GEO_TIMEOUT_MS)] resolves to for each
    address while one [getMapNodes] runs. *)
Variable geoOf : option string -> FetchError + option GeoLocation.

(** The callback given to [map], with its [try]/[catch]: the map node of
    [node], or null. Of the object it builds, [MapNode] keeps the fields
    declared above. *)
Definition mapNodeOf (node : PNode) : option MapNode :=
  match geoOf (js_or (address node) (ip node)) with
  | inr (Some geo) =>
      Some (mkMapNode (pubkey node) (geo_country geo) (geo_region geo) (status node))
  | inr None => None
  | inl _ => None
  end.

Definition BATCH_SIZE : nat := 20.

(** [nodes.slice(i, j)] for [0 <= i <= j]. *)
Definition slice {A} (i j : nat) (l : list A) : list A := take (j - i) (drop i l).

(** [for (let i = 0; i < nodes.length; i += BATCH_SIZE)], the results of
    each batch pushed in order; [fuel] bounds the iterations. *)
Fixpoint batchLoop (fuel i : nat) (nodes : list PNode) (mapNodes : list MapNode)
  : list MapNode :=
  match fuel with
  | O => mapNodes
  | S fuel' =>
      if (i <? length nodes)%nat then
        let batch := slice i (i + BATCH_SIZE) nodes in
        batchLoop fuel' (i + BATCH_SIZE) nodes (mapNodes ++ omap mapNodeOf batch)
      else mapNodes
  end.

(** [getMapNodes], from the list [getAllPNodes()] resolved to. *)
Definition getMapNodes (nodes : list PNode) : list MapNode :=
  if (100 <? length nodes)%nat
  then batchLoop (length nodes) 0 nodes []
  else [] ++ omap mapNodeOf nodes.

End Geo.

Arguments JNum {number} _.
Arguments JStr {number} _.
Arguments mkGeoData {number} _ _ _ _ _ _ _.
Arguments gd_status {number} _.
Arguments gd_message {number} _.
Arguments gd_lat {number} _.
Arguments gd_lon {number} _.
Arguments gd_country {number} _.
Arguments gd_regionName {number} _.
Arguments gd_city {number} _.
Arguments mkHttpResponse {number} _ _.
Arguments ok {number} _.
Arguments json {number} _.
Arguments mkGeoLocation {number} _ _ _ _ _.
Arguments lat {number} _.
Arguments lng {number} _.
Arguments geo_country {number} _.
Arguments geo_region {number} _.
Arguments city {number} _.
Arguments mkGeoWorld {number} _ _.
Arguments geoCache {number} _.
Arguments fetched_urls {number} _.

(** ** More scenarios *)

(** The primary endpoint answers the plain listing only. *)
Definition netPlain : Net :=
  mkNet (inl timed_out) (inr (mkResponse (Some batchA)))
        (fun _ => inl timed_out) (fun _ => inl timed_out).

Definition emptyAnalyticsWorld : AnalyticsWorld := mkAnalyticsWorld ∅ [].

(** Y with no [address], only an [ip]. *)
Definition nodeY_ip_only : PNode :=
  mkPNode "Y" online "0.8.0" 1024 4096 86400 (Some "10.0.0.2") None
          EmptyString None None.

Definition worldD_ip_only : World :=
  mkWorld {[CACHE_KEY := mkEntry [nodeY_ip_only] 30000]} ∅ [].

(** Frankfurt, as ip-api.com would describe it; numbers as integers of
    micro-degrees. *)
Definition frankfurt : GeoData Z :=
  mkGeoData (Some "success") None (Some (JNum 50110900)) (Some (JNum 8682100))
            (Some "Germany") (Some "Hesse") (Some "Frankfurt am Main").

Definition fetchFrankfurt (url : string) : FetchError + HttpResponse Z :=
  inr (mkHttpResponse true (inr frankfurt)).

Definition fetchAborted (url : string) : FetchError + HttpResponse Z :=
  inl (mkFetchError "AbortError" (Some "This operation was aborted")).

Definition emptyGeoWorld : GeoWorld Z := mkGeoWorld ∅ [].

Definition frankfurtLocation : GeoLocation Z :=
  mkGeoLocation 50110900 8682100 "Germany" "Hesse" (Some "Frankfurt am Main").

(** A geo cache that knows 10.0.0.1. *)
Definition warmGeoWorld : GeoWorld Z :=
  mkGeoWorld {[GEO_CACHE_KEY_PREFIX +:+ "10.0.0.1" := mkEntry frankfurtLocation 86400000]}
             [].

(** Truthiness of the integers that stand for numbers in the scenarios. *)
Definition Z_truthy (n : Z) : bool := negb (n =? 0).

(** The string coordinates of the scenarios are not read. *)
Definition parseFloat_none (s : string) : Z := 0.

(** Every address resolves to Frankfurt. *)
Definition geoFrankfurt (address : option string)
  : FetchError + option (GeoLocation Z) :=
  inr (Some frankfurtLocation).

(** ** Discovery: what it returns and what it requests *)

Lemma logged_nil w : logged w [] = w.
Proof. destruct w; unfold logged; simpl. by rewrite app_nil_r. Qed.

Lemma logged_logged w evs1 evs2 :
  logged (logged w evs1) evs2 = logged w (evs1 ++ evs2).
Proof. unfold logged; simpl. by rewrite app_assoc. Qed.

Lemma length_pos_nil {A} (l : list A) :
  (0 <? length l)%nat = match l with [] => false | _ => true end.
Proof. by destruct l. Qed.

Section Discovery.
Variable normalizePNode : Pod -> Exn + PNode.
Variable SEED_IPS : list string.
Variable net : Net.

Local Abbreviation normalizeAll := (normalizeAll normalizePNode).
Local Abbreviation usableNode := (usableNode normalizePNode).
Local Abbreviation usable := (usable normalizePNode).
Local Abbreviation fallbackLoop := (fallbackLoop normalizePNode net).
Local Abbreviation fallbackYield := (fallbackYield normalizePNode net).
Local Abbreviation fallbackEvents := (fallbackEvents normalizePNode net).
Local Abbreviation discoverPNodesViaGossip :=
  (discoverPNodesViaGossip normalizePNode SEED_IPS net).
Local Abbreviation discovered := (discovered normalizePNode SEED_IPS net).
Local Abbreviation discoveryEvents :=
  (discoveryEvents normalizePNode SEED_IPS net).

Lemma pushNormalized_usable acc pod :
  pushNormalized normalizePNode acc pod
  = acc ++ match usableNode pod with Some n => [n] | None => [] end.
Proof.
  unfold pushNormalized, usableNode.
  destruct (normalizePNode pod) as [e|n]; [by rewrite app_nil_r|].
  destruct (truthy (pubkey n)); [done | by rewrite app_nil_r].
Qed.

(** The loop over the records keeps every usable record, in order. *)
Lemma normalizeAll_omap ps : forall acc,
  normalizeAll acc ps = acc ++ omap usableNode ps.
Proof.
  induction ps as [|pod ps IH]; intros acc; simpl.
  - by rewrite app_nil_r.
  - unfold normalizeAll in *. simpl. rewrite IH, pushNormalized_usable.
    rewrite <- app_assoc. by destruct (usableNode pod).
Qed.

Lemma fallback_step seed w :
  try_catch
    (emit (NewPrpcClient seed 5000) ;;;
     response <- rpc (ClientGetPods seed) (seed_getPods net seed) ;;
     ps <- iterate response ;;
     let discoveredNodes := normalizeAll [] ps in
     ret (discoveredNodes, (0 <? length discoveredNodes)%nat))
    (fun _ => ret ([], false)) w
  = (inr (usable (seed_getPods net seed),
          match usable (seed_getPods net seed) with [] => false | _ => true end),
     logged w [NewPrpcClient seed 5000; ClientGetPods seed]).
Proof.
  unfold try_catch, bind, rpc, emit, iterate, ret, throw, logged,
    usable; simpl.
  rewrite <- app_assoc; simpl.
  destruct (seed_getPods net seed) as [e|[[ps|]]]; simpl; try done.
  rewrite normalizeAll_omap; simpl. by rewrite length_pos_nil.
Qed.

Lemma fallbackLoop_spec seeds : forall w,
  fallbackLoop seeds [] w
  = (inr (fallbackYield seeds), logged w (fallbackEvents seeds)).
Proof.
  induction seeds as [|seed rest IH]; intros w; simpl.
  - by rewrite logged_nil.
  - unfold bind at 1. rewrite fallback_step.
    destruct (usable (seed_getPods net seed)) as [|n ns] eqn:Hu.
    + rewrite IH, logged_logged. done.
    + done.
Qed.

Lemma primary_step w :
  try_catch
    (response <- try_catch
                   (rpc PrimaryGetPodsWithStats (primary_getPodsWithStats net))
                   (fun _ => rpc PrimaryGetPods (primary_getPods net)) ;;
     ps <- iterate response ;;
     let discoveredNodes := normalizeAll [] ps in
     if (0 <? length discoveredNodes)%nat
     then ret (discoveredNodes, true)
     else ret (discoveredNodes, false))
    (fun _ => ret ([], false)) w
  = (inr (usable (primaryAnswer net),
          match usable (primaryAnswer net) with [] => false | _ => true end),
     logged w (primaryEvents net)).
Proof.
  unfold try_catch, bind, rpc, emit, iterate, ret, throw, logged,
    usable, primaryAnswer, primaryEvents; simpl.
  destruct (primary_getPodsWithStats net) as [e|[[ps|]]]; simpl.
  - rewrite <- app_assoc; simpl.
    destruct (primary_getPods net) as [e'|[[ps|]]]; simpl; try done.
    rewrite normalizeAll_omap, length_pos_nil; simpl.
    by destruct (omap usableNode ps).
  - rewrite normalizeAll_omap, length_pos_nil; simpl.
    by destruct (omap usableNode ps).
  - done.
Qed.

Lemma discover_spec w :
  discoverPNodesViaGossip w = (inr discovered, logged w discoveryEvents).
Proof.
  unfold discoverPNodesViaGossip, discovered,
    discoveryEvents.
  unfold bind at 1. rewrite primary_step.
  destruct (usable (primaryAnswer net)) as [|n ns] eqn:Hu.
  - by rewrite fallbackLoop_spec, logged_logged.
  - unfold ret. by rewrite app_nil_r.
Qed.
End Discovery.

(** ** Deduplication *)

Lemma dedup_fold nodes : forall seen uniqueNodes,
  (fold_left dedupStep nodes (seen, uniqueNodes)).2
  = uniqueNodes ++ firstSeen (dom seen) nodes.
Proof.
  induction nodes as [|node rest IH]; intros seen uniqueNodes; simpl.
  - by rewrite app_nil_r.
  - destruct (truthy (pubkey node)) eqn:Ht; simpl.
    + destruct (seen !! pubkey node) as [old|] eqn:Hs.
      * rewrite bool_decide_eq_false_2; [apply IH|].
        intros Hn. apply Hn, elem_of_dom. eauto.
      * rewrite bool_decide_eq_true_2 by (by apply not_elem_of_dom).
        rewrite IH, dom_insert_L, <- app_assoc. done.
    + apply IH.
Qed.

Lemma dedup_firstSeen nodes : dedup nodes = firstSeen ∅ nodes.
Proof. unfold dedup. by rewrite dedup_fold, dom_empty_L. Qed.

Lemma firstSeen_cons_keep seen node rest :
  truthy (pubkey node) = true -> pubkey node ∉ seen ->
  firstSeen seen (node :: rest) = node :: firstSeen ({[pubkey node]} ∪ seen) rest.
Proof. intros Ht Hn; simpl. by rewrite Ht, bool_decide_eq_true_2. Qed.

Lemma firstSeen_cons_skip seen node rest :
  truthy (pubkey node) = false \/ pubkey node ∈ seen ->
  firstSeen seen (node :: rest) = firstSeen seen rest.
Proof.
  intros [Ht|Hin]; simpl.
  - by rewrite Ht.
  - rewrite (bool_decide_eq_false_2 (pubkey node ∉ seen)) by tauto.
    by rewrite andb_false_r.
Qed.

(** Case split on the head of the list given to [firstSeen]. *)
Ltac firstSeen_head seen node :=
  let Ht := fresh "Ht" in
  let Hin := fresh "Hin" in
  destruct (truthy (pubkey node)) eqn:Ht;
  [ destruct (decide (pubkey node ∈ seen)) as [Hin|Hin];
    [ rewrite (firstSeen_cons_skip seen node) by (by right)
    | rewrite (firstSeen_cons_keep seen node) by done ]
  | rewrite (firstSeen_cons_skip seen node) by (by left) ].

Lemma firstSeen_sublist nodes : forall seen, sublist (firstSeen seen nodes) nodes.
Proof.
  induction nodes as [|node rest IH]; intros seen; [constructor|].
  firstSeen_head seen node.
  - by apply sublist_cons.
  - by apply sublist_skip.
  - by apply sublist_cons.
Qed.

Lemma firstSeen_elem nodes : forall seen n,
  n ∈ firstSeen seen nodes -> truthy (pubkey n) = true /\ pubkey n ∉ seen.
Proof.
  induction nodes as [|node rest IH]; intros seen n; [by intros ?%elem_of_nil|].
  firstSeen_head seen node; [by apply IH| |by apply IH].
  intros [->|Hn]%elem_of_cons; [done|].
  apply IH in Hn as [? Hn]. split; [done|].
  intros ?. apply Hn, elem_of_union. by right.
Qed.

Lemma firstSeen_NoDup nodes : forall seen, NoDup (pubkey <$> firstSeen seen nodes).
Proof.
  induction nodes as [|node rest IH]; intros seen; [constructor|].
  firstSeen_head seen node; [apply IH| |apply IH].
  rewrite fmap_cons. constructor; [|apply IH].
  intros (n & Heq & Hn)%list_elem_of_fmap.
  apply firstSeen_elem in Hn as [_ Hn]. set_solver.
Qed.

(** A kept node is the first node of the list with its pubkey. *)
Lemma firstSeen_find nodes : forall seen n,
  n ∈ firstSeen seen nodes -> findByPubkey (pubkey n) nodes = Some n.
Proof.
  unfold findByPubkey.
  induction nodes as [|node rest IH]; intros seen n; [by intros ?%elem_of_nil|].
  firstSeen_head seen node.
  - intros Hn. pose proof (firstSeen_elem _ _ _ Hn) as [_ Hns]. simpl.
    rewrite bool_decide_eq_false_2 by congruence. eauto.
  - intros [->|Hn]%elem_of_cons; simpl.
    + by rewrite bool_decide_eq_true_2.
    + pose proof (firstSeen_elem _ _ _ Hn) as [_ Hns].
      rewrite bool_decide_eq_false_2 by set_solver. eauto.
  - intros Hn. pose proof (firstSeen_elem _ _ _ Hn) as [Htn _]. simpl.
    rewrite bool_decide_eq_false_2 by congruence. eauto.
Qed.

(** Every identity of the input is represented. *)
Lemma firstSeen_complete nodes : forall seen m,
  m ∈ nodes -> truthy (pubkey m) = true -> pubkey m ∉ seen ->
  pubkey m ∈ pubkey <$> firstSeen seen nodes.
Proof.
  induction nodes as [|node rest IH]; intros seen m; [by intros ?%elem_of_nil|].
  intros [->|Hm]%elem_of_cons Htm Hseen.
  - rewrite firstSeen_cons_keep by done. rewrite fmap_cons. left.
  - firstSeen_head seen node; eauto.
    rewrite fmap_cons. destruct (decide (pubkey m = pubkey node)) as [->|Hne].
    + left.
    + right. apply IH; [done..|].
      by intros [?%elem_of_singleton|?]%elem_of_union.
Qed.

Lemma dedup_length nodes :
  Forall (fun n => truthy (pubkey n) = true) nodes ->
  length (dedup nodes) = distinctIdentities nodes.
Proof.
  intros Hall. unfold distinctIdentities. rewrite dedup_firstSeen.
  rewrite <- (length_fmap pubkey).
  rewrite <- (size_list_to_set (C := gset string)) by apply firstSeen_NoDup.
  f_equal. apply set_eq. intros k. rewrite !elem_of_list_to_set. split.
  - intros (n & -> & Hn)%list_elem_of_fmap. apply list_elem_of_fmap.
    exists n. split; [done|].
    eapply elem_of_submseteq; [done|]. apply sublist_submseteq, firstSeen_sublist.
  - intros (m & -> & Hm)%list_elem_of_fmap.
    apply firstSeen_complete; [done| |set_solver].
    by eapply Forall_forall in Hall.
Qed.

Lemma omap_usable_truthy normalizePNode ps :
  Forall (fun n => truthy (pubkey n) = true) (omap (usableNode normalizePNode) ps).
Proof.
  apply Forall_forall. intros n (pod & Hpod & Hn)%list_elem_of_omap.
  unfold usableNode in Hn. destruct (normalizePNode pod) as [e|n']; [done|].
  destruct (truthy (pubkey n')) eqn:Ht; congruence.
Qed.

(** ** The node-set cache and the lookups built on it *)

Section NodeCache.
Variable normalizePNode : Pod -> Exn + PNode.
Variable SEED_IPS : list string.
Variable enrichNodesWithCachedStats :
  gmap string (Entry NodeStats) -> list PNode -> list PNode.
Variable net : Net.

Local Abbreviation usableNode := (usableNode normalizePNode).
Local Abbreviation usable := (usable normalizePNode).
Local Abbreviation discoverPNodesViaGossip :=
  (discoverPNodesViaGossip normalizePNode SEED_IPS net).
Local Abbreviation discovered := (discovered normalizePNode SEED_IPS net).
Local Abbreviation discoveryEvents :=
  (discoveryEvents normalizePNode SEED_IPS net).
Local Abbreviation getAllPNodes :=
  (getAllPNodes normalizePNode SEED_IPS enrichNodesWithCachedStats net).
Local Abbreviation getPNodeByPubkey :=
  (getPNodeByPubkey normalizePNode SEED_IPS enrichNodesWithCachedStats net).
Local Abbreviation getNodeStatsByPubkey :=
  (getNodeStatsByPubkey normalizePNode SEED_IPS enrichNodesWithCachedStats net).

Lemma getAllPNodes_hit w e :
  nodeCache w !! CACHE_KEY = Some e ->
  getAllPNodes w = (inr (enrichNodesWithCachedStats (statsCache w) (value e)), w).
Proof.
  intros He. unfold getAllPNodes, bind, nodeCache_get, enrich.
  by rewrite He.
Qed.

Lemma getAllPNodes_miss w :
  nodeCache w !! CACHE_KEY = None ->
  getAllPNodes w
  = (inr (enrichNodesWithCachedStats (statsCache w) (dedup discovered)),
     mkWorld (<[CACHE_KEY := mkEntry (dedup discovered) 30000]> (nodeCache w))
             (statsCache w) (netlog w ++ discoveryEvents)).
Proof.
  intros He. unfold getAllPNodes, bind, nodeCache_get.
  rewrite He; simpl. by rewrite discover_spec.
Qed.

Lemma fallbackEvents_gossip seeds :
  Forall gossipEvent (fallbackEvents normalizePNode net seeds).
Proof.
  induction seeds as [|seed rest IH]; simpl; [constructor|].
  constructor; [done|]. constructor; [done|].
  by destruct (usable (seed_getPods net seed)).
Qed.

Lemma discoveryEvents_gossip : Forall gossipEvent discoveryEvents.
Proof.
  unfold discoveryEvents, primaryEvents. apply Forall_app. split.
  - destruct (primary_getPodsWithStats net); repeat constructor.
  - destruct (usable (primaryAnswer net)); [apply fallbackEvents_gossip|constructor].
Qed.

(** The bulk listing always returns; it leaves the stats cache alone
    and requests nothing but gossip listings. *)
Lemma getAllPNodes_total w :
  exists nodes w1 evs,
    getAllPNodes w = (inr nodes, w1) /\
    statsCache w1 = statsCache w /\
    netlog w1 = netlog w ++ evs /\
    Forall gossipEvent evs.
Proof.
  destruct (nodeCache w !! CACHE_KEY) as [e|] eqn:He.
  - eexists _, w, []. rewrite (getAllPNodes_hit _ _ He), app_nil_r.
    split_and!; [done..|constructor].
  - eexists _, _, discoveryEvents. rewrite (getAllPNodes_miss _ He).
    split_and!; [done..|apply discoveryEvents_gossip].
Qed.

Lemma getPNodeByPubkey_unfold key w nodes w1 :
  getAllPNodes w = (inr nodes, w1) ->
  getPNodeByPubkey key w = (inr (findByPubkey key nodes), w1).
Proof.
  intros Hall. unfold getPNodeByPubkey, bind. by rewrite Hall.
Qed.

(** The first node with a pubkey, as a position in the list. *)
Lemma findByPubkey_Some key nodes n :
  findByPubkey key nodes = Some n <->
  exists before after,
    nodes = before ++ n :: after /\ pubkey n = key /\
    Forall (fun m => pubkey m <> key) before.
Proof.
  unfold findByPubkey. induction nodes as [|m rest IH]; simpl.
  - split; [done|]. intros (before & after & Heq & _). by destruct before.
  - destruct (decide (pubkey m = key)) as [Hm|Hm].
    + rewrite bool_decide_eq_true_2 by done. split.
      * intros [= ->]. exists [], rest. by repeat split.
      * intros ([|m' before] & after & Heq & Hk & Hall); simplify_eq/=; [done|].
        by apply Forall_cons in Hall as [? _].
    + rewrite bool_decide_eq_false_2 by done. rewrite IH. split.
      * intros (before & after & -> & Hk & Hall).
        exists (m :: before), after. repeat split; [done|]. by constructor.
      * intros ([|m' before] & after & Heq & Hk & Hall); simplify_eq/=.
        apply Forall_cons in Hall as [_ Hall]. by exists before, after.
Qed.

Lemma findByPubkey_None key nodes :
  findByPubkey key nodes = None <-> forall n, n ∈ nodes -> pubkey n <> key.
Proof.
  unfold findByPubkey. induction nodes as [|m rest IH]; simpl.
  - split; [|done]. by intros _ n ?%elem_of_nil.
  - destruct (decide (pubkey m = key)) as [Hm|Hm].
    + rewrite bool_decide_eq_true_2 by done. split; [done|].
      intros Hall. destruct (Hall m); [left|done].
    + rewrite bool_decide_eq_false_2 by done. rewrite IH. split.
      * intros Hall n [->|Hn]%elem_of_cons; eauto.
      * intros Hall n Hn. apply Hall. by right.
Qed.
End NodeCache.

(** ** Counting and sorting *)

Lemma num_or_0 x : num_or x 0 = default 0 x.
Proof. destruct x as [v|]; simpl; [|done]. destruct (Z.eqb_spec v 0); congruence. Qed.

Lemma map_set_sum m k v :
  sumZ ((map_set m k v).*2) = sumZ (m.*2) - default 0 (map_get m k) + v.
Proof.
  induction m as [|[k' v'] m IH]; csimpl; [lia|].
  destruct (decide (k' = k)); csimpl; [lia|]. rewrite IH. lia.
Qed.

Lemma map_set_increment m k :
  sumZ ((map_set m k (num_or (map_get m k) 0 + 1)).*2) = sumZ (m.*2) + 1.
Proof. rewrite map_set_sum, num_or_0. lia. Qed.

Lemma countBy_fold (key : MapNode -> string) mapNodes : forall m,
  sumZ ((fold_left
           (fun m node => map_set m (key node) (num_or (map_get m (key node)) 0 + 1))
           mapNodes m).*2)
  = sumZ (m.*2) + Z.of_nat (length mapNodes).
Proof.
  induction mapNodes as [|node rest IH]; intros m; simpl length; simpl fold_left.
  - lia.
  - rewrite IH, map_set_increment. lia.
Qed.

Lemma countBy_sum (key : MapNode -> string) mapNodes :
  sumZ ((countBy key mapNodes).*2) = Z.of_nat (length mapNodes).
Proof. unfold countBy. by rewrite countBy_fold. Qed.

Section SortFacts.
Context {A : Type} (count : A -> Z).

(** The comparator [(a, b) => b.count - a.count] and the order it
    sorts into. *)
Local Abbreviation byCountDesc := (fun a b : A => count b - count a).
Local Abbreviation notBelow := (fun a b : A => count b <= count a).

Lemma sort_insert_sum x l :
  sumZ (count <$> sort_insert byCountDesc x l) = count x + sumZ (count <$> l).
Proof.
  induction l as [|y l IH]; csimpl; [done|].
  destruct (Z.leb_spec (count y - count x) 0); csimpl; [done|]. rewrite IH. lia.
Qed.

Lemma js_sort_sum l :
  sumZ (count <$> js_sort byCountDesc l) = sumZ (count <$> l).
Proof.
  induction l as [|x l IH]; csimpl; [done|]. by rewrite sort_insert_sum, IH.
Qed.

Lemma sort_insert_HdRel a x l :
  notBelow a x -> HdRel notBelow a l -> HdRel notBelow a (sort_insert byCountDesc x l).
Proof.
  intros Hax Hal. destruct l as [|y l]; simpl; [by constructor|].
  destruct (Z.leb_spec (count y - count x) 0); constructor; [done|].
  by inversion Hal.
Qed.

Lemma sort_insert_Sorted x l :
  Sorted notBelow l -> Sorted notBelow (sort_insert byCountDesc x l).
Proof.
  induction 1 as [|y l Hl IH Hhd]; simpl; [by repeat constructor|].
  destruct (Z.leb_spec (count y - count x) 0).
  - constructor; [by constructor|]. constructor. lia.
  - constructor; [done|]. apply sort_insert_HdRel; [lia|done].
Qed.

Lemma js_sort_Sorted l : Sorted notBelow (js_sort byCountDesc l).
Proof.
  induction l as [|x l IH]; simpl; [constructor|]. by apply sort_insert_Sorted.
Qed.

Lemma js_sort_StronglySorted l : StronglySorted notBelow (js_sort byCountDesc l).
Proof.
  apply Sorted_StronglySorted; [|apply js_sort_Sorted].
  intros a b c Hab Hbc. simpl in *. lia.
Qed.
End SortFacts.

(** ** Geographic summary *)

Lemma country_counts m :
  cc_count <$> map (fun '(country, count) => mkCountryCount country count) m = m.*2.
Proof. induction m as [|[k v] m IH]; csimpl; [done|]. by f_equal. Qed.

Lemma region_counts m :
  rc_count <$> map (fun '(region, count) => mkRegionCount region count) m = m.*2.
Proof. induction m as [|[k v] m IH]; csimpl; [done|]. by f_equal. Qed.

(** C10. For every list of map nodes, the counts per country of the
    summary add up to the number of map nodes, so do the counts per
    region, and both lists come out in non-increasing order of count:
    every entry's count is at least the count of every later entry. *)
Theorem getGeoSummary_conserves_counts (mapNodes : list MapNode) :
  let summary := getGeoSummary mapNodes in
  sumZ (cc_count <$> countries summary) = Z.of_nat (length mapNodes) /\
  sumZ (rc_count <$> regions summary) = Z.of_nat (length mapNodes) /\
  StronglySorted (fun a b => cc_count b <= cc_count a) (countries summary) /\
  StronglySorted (fun a b => rc_count b <= rc_count a) (regions summary).
Proof.
  unfold getGeoSummary; simpl. split_and!.
  - by rewrite (js_sort_sum cc_count), country_counts, countBy_sum.
  - by rewrite (js_sort_sum rc_count), region_counts, countBy_sum.
  - apply (js_sort_StronglySorted cc_count).
  - apply (js_sort_StronglySorted rc_count).
Qed.

Example getGeoSummary_three_countries :
  getGeoSummary mapNodesE
  = mkGeoSummary
      [mkCountryCount "Germany" 3; mkCountryCount "USA" 1; mkCountryCount "France" 1]
      [mkRegionCount "Hesse" 3; mkRegionCount "Virginia" 1; mkRegionCount "Bavaria" 1].
Proof. reflexivity. Qed.

(** ** Online status *)

Lemma isOnline_spec now ts :
  Z.abs (ts * 1000) <= MAX_TIME_VALUE ->
  isOnline now ts = bool_decide (now - ts * 1000 < 300 * 1000).
Proof.
  intros Hrange. unfold isOnline, secondsAgo, Date_getTime.
  destruct (Z.leb_spec (Z.abs (ts * 1000)) MAX_TIME_VALUE); [|lia].
  pose proof (Z_div_mod_eq_full (now - ts * 1000) 1000) as Hdiv.
  pose proof (Z.mod_pos_bound (now - ts * 1000) 1000) as Hmod.
  destruct (Z.ltb_spec ((now - ts * 1000) / 1000) 300) as [Hlt|Hge].
  - rewrite bool_decide_eq_true_2; [done|lia].
  - rewrite bool_decide_eq_false_2; [done|lia].
Qed.

(** C6. A node whose last-seen time a Date can hold is online exactly
    when [now - lastObservedAt] is strictly below the threshold of 300
    seconds: 299 seconds ago is online, 300 and 301 seconds ago are
    offline. The status printed for a pod is that function of the
    timestamp and of [now] and of nothing else, so deriving it again
    for the same two gives the same status. *)
Theorem online_iff_below_threshold (now ts : Z) :
  Z.abs (ts * 1000) <= MAX_TIME_VALUE ->
  (isOnline now ts = true <-> now - ts * 1000 < 300 * 1000) /\
  isOnline (ts * 1000 + 299 * 1000) ts = true /\
  isOnline (ts * 1000 + 300 * 1000) ts = false /\
  isOnline (ts * 1000 + 301 * 1000) ts = false /\
  forall pod, pod_last_seen_timestamp pod = Some ts -> ts <> 0 ->
    lastSeenStatus now pod
    = Some (if bool_decide (now - ts * 1000 < 300 * 1000) then online else offline).
Proof.
  intros Hrange. split_and!.
  - rewrite isOnline_spec by done. apply bool_decide_eq_true.
  - rewrite isOnline_spec by done. apply bool_decide_eq_true_2. lia.
  - rewrite isOnline_spec by done. apply bool_decide_eq_false_2. lia.
  - rewrite isOnline_spec by done. apply bool_decide_eq_false_2. lia.
  - intros pod Hts Hnz. unfold lastSeenStatus. rewrite Hts.
    destruct (Z.eqb_spec ts 0); [done|]. rewrite isOnline_spec by done.
    unfold Date_getTime. by destruct (Z.leb_spec (Z.abs (ts * 1000)) MAX_TIME_VALUE); [|lia].
Qed.

(** A pod last seen 299 s before [NOW]. *)
Lemma online_iff_below_threshold_witness :
  Z.abs (1767225301 * 1000) <= MAX_TIME_VALUE /\
  (isOnline NOW 1767225301 = true <-> NOW - 1767225301 * 1000 < 300 * 1000) /\
  isOnline NOW 1767225301 = true /\
  isOnline NOW 1767225299 = false.
Proof.
  split; [by vm_compute|]. split; [|by vm_compute].
  apply (online_iff_below_threshold NOW 1767225301). by vm_compute.
Defined.

(** ** Discovery: batches, fallback, failure *)

Section DiscoveryClaims.
Variable normalizePNode : Pod -> Exn + PNode.
Variable SEED_IPS : list string.
Variable net : Net.

Local Abbreviation normalizeAll := (normalizeAll normalizePNode).
Local Abbreviation usableNode := (usableNode normalizePNode).
Local Abbreviation usable := (usable normalizePNode).
Local Abbreviation fallbackYield := (fallbackYield normalizePNode net).
Local Abbreviation fallbackEvents := (fallbackEvents normalizePNode net).
Local Abbreviation discoverPNodesViaGossip :=
  (discoverPNodesViaGossip normalizePNode SEED_IPS net).
Local Abbreviation discovered := (discovered normalizePNode SEED_IPS net).
Local Abbreviation discoveryEvents :=
  (discoveryEvents normalizePNode SEED_IPS net).

(** An answer with usable nodes carries a batch, and the usable nodes
    are those of the batch. *)
Lemma usable_batch answer :
  usable answer = [] \/
  exists batch, answer = inr (mkResponse (Some batch)) /\
                usable answer = omap usableNode batch.
Proof.
  destruct answer as [e|[[batch|]]]; simpl; eauto.
Qed.

Lemma fallbackYield_batch seeds :
  fallbackYield seeds = [] \/
  exists seed batch,
    seed ∈ seeds /\ seed_getPods net seed = inr (mkResponse (Some batch)) /\
    fallbackYield seeds = omap usableNode batch.
Proof.
  induction seeds as [|seed rest IH]; simpl; [by left|].
  destruct (usable (seed_getPods net seed)) as [|n ns] eqn:Hu.
  - destruct IH as [IH|(s & batch & Hs & Hb & Hy)]; [by left|].
    right. exists s, batch. split_and!; [by right|done..].
  - right. destruct (usable_batch (seed_getPods net seed)) as [Hnil|(batch & Hb & Hy)];
      [congruence|].
    exists seed, batch. split_and!; [left|done|congruence].
Qed.

Lemma fallbackYield_app before seed after :
  Forall (fun s => usable (seed_getPods net s) = []) before ->
  usable (seed_getPods net seed) <> [] ->
  fallbackYield (before ++ seed :: after) = usable (seed_getPods net seed) /\
  fallbackEvents (before ++ seed :: after)
  = flat_map (fun s => [NewPrpcClient s 5000; ClientGetPods s]) (before ++ [seed]).
Proof.
  intros Hbefore Hseed. induction Hbefore as [|s before Hs _ IH]; simpl.
  - by destruct (usable (seed_getPods net seed)).
  - rewrite Hs. destruct IH as [-> ->]. done.
Qed.

Lemma fallbackYield_none seeds :
  Forall (fun s => usable (seed_getPods net s) = []) seeds ->
  fallbackYield seeds = [] /\
  fallbackEvents seeds
  = flat_map (fun s => [NewPrpcClient s 5000; ClientGetPods s]) seeds.
Proof.
  induction 1 as [|s seeds Hs _ [IHy IHe]]; simpl; [done|].
  by rewrite Hs, IHy, IHe.
Qed.

Lemma omap_usable_length (ps : list Pod) :
  length (omap usableNode ps)
  = length (filter (fun pod => is_Some (usableNode pod)) ps).
Proof.
  induction ps as [|pod ps IH]; [done|]. csimpl. rewrite filter_cons.
  destruct (usableNode pod) as [n|] eqn:Hn.
  - rewrite decide_True by eauto. csimpl. by rewrite IH.
  - rewrite decide_False by (by intros [? ?]). done.
Qed.

(** C1, as the code has it. Discovery returns every usable record
    (normalization succeeded, pubkey not empty) of the batch that
    serves the call, in input order and with the duplicates of an
    identity left in; the batch that serves the call is the primary
    endpoint's when it has a usable record, and else that of the first
    fallback seed that has one. It is the deduplication of
    [getAllPNodes] that brings this list down to as many nodes as it
    has distinct identities, each the first occurrence of its
    identity, in order of first appearance. *)
Theorem discover_returns_every_usable_record (w : World) (batch : list Pod) :
  omap usableNode batch <> [] ->
  (primaryAnswer net = inr (mkResponse (Some batch)) \/
   (usable (primaryAnswer net) = [] /\
    exists before seed after,
      drop 1 SEED_IPS = before ++ seed :: after /\
      Forall (fun s => usable (seed_getPods net s) = []) before /\
      seed_getPods net seed = inr (mkResponse (Some batch)))) ->
  let nodes := omap usableNode batch in
  discoverPNodesViaGossip w = (inr nodes, logged w discoveryEvents) /\
  length nodes = length (filter (fun pod => is_Some (usableNode pod)) batch) /\
  length (dedup nodes) = distinctIdentities nodes /\
  NoDup (pubkey <$> dedup nodes) /\
  dedup nodes `sublist_of` nodes /\
  forall n, n ∈ dedup nodes -> findByPubkey (pubkey n) nodes = Some n.
Proof.
  intros Husable Hserved.
  assert (discovered = omap usableNode batch) as Hd.
  { unfold discovered. destruct Hserved
      as [Hprimary|(Hprimary & before & seed & after & Hseeds & Hbefore & Hseed)].
    - rewrite Hprimary. simpl. by destruct (omap usableNode batch).
    - rewrite Hprimary, Hseeds.
      assert (usable (seed_getPods net seed) = omap usableNode batch) as Hy
        by (by rewrite Hseed).
      destruct (fallbackYield_app before seed after Hbefore) as [-> _];
        [by rewrite Hy|done]. }
  simpl. rewrite <- Hd. split_and!.
  - apply discover_spec.
  - rewrite Hd. apply omap_usable_length.
  - apply dedup_length. rewrite Hd. apply omap_usable_truthy.
  - rewrite dedup_firstSeen. apply firstSeen_NoDup.
  - rewrite dedup_firstSeen. apply firstSeen_sublist.
  - intros n. rewrite dedup_firstSeen. apply firstSeen_find.
Qed.

(** C3. When the primary endpoint yields no usable node, the fallback
    seeds (the seeds after the first) are queried in their order, each
    through a client of its own with a 5 s timeout, up to the first
    one that yields a usable node; its nodes are the result and no
    later seed is queried. *)
Theorem discover_first_fallback (w : World) (before after : list string)
    (seed : string) :
  drop 1 SEED_IPS = before ++ seed :: after ->
  usable (primaryAnswer net) = [] ->
  Forall (fun s => usable (seed_getPods net s) = []) before ->
  usable (seed_getPods net seed) <> [] ->
  discoverPNodesViaGossip w
  = (inr (usable (seed_getPods net seed)),
     logged w (primaryEvents net ++
               flat_map (fun s => [NewPrpcClient s 5000; ClientGetPods s])
                        (before ++ [seed]))).
Proof.
  intros Hseeds Hprimary Hbefore Hseed.
  rewrite discover_spec. unfold discovered, discoveryEvents.
  rewrite Hprimary, Hseeds.
  by destruct (fallbackYield_app before seed after Hbefore Hseed) as [-> ->].
Qed.

(** C4. Discovery never throws, whatever fails. When the primary
    endpoint and every fallback seed fail or yield no usable record,
    it returns the empty list, having tried every seed. And a record
    whose normalization throws is skipped without a trace: the batch
    is processed as if the record were not there. *)
Theorem discover_never_throws (w : World) :
  (exists nodes evs, discoverPNodesViaGossip w = (inr nodes, logged w evs)) /\
  (usable (primaryAnswer net) = [] ->
   Forall (fun s => usable (seed_getPods net s) = []) (drop 1 SEED_IPS) ->
   discoverPNodesViaGossip w
   = (inr [],
      logged w (primaryEvents net ++
                flat_map (fun s => [NewPrpcClient s 5000; ClientGetPods s])
                         (drop 1 SEED_IPS)))) /\
  (forall acc ps1 pod ps2 e,
     normalizePNode pod = inl e ->
     normalizeAll acc (ps1 ++ pod :: ps2) = normalizeAll acc (ps1 ++ ps2)).
Proof.
  split_and!.
  - eexists _, _. apply discover_spec.
  - intros Hprimary Hseeds. rewrite discover_spec.
    unfold discovered, discoveryEvents. rewrite Hprimary.
    by destruct (fallbackYield_none _ Hseeds) as [-> ->].
  - intros acc ps1 pod ps2 e Hthrow.
    rewrite !normalizeAll_omap, !omap_app; simpl.
    unfold usableNode at 2. by rewrite Hthrow.
Qed.
End DiscoveryClaims.

(** ** Discovery on the scenarios *)

(** Scenario B: the primary endpoint times out and the first fallback
    seed lists five usable records; those five nodes are the result, and
    the later seeds are not queried. *)
Lemma discover_first_fallback_witness :
  drop 1 SEED_IPS_README = [] ++ "161.97.97.41" :: drop 2 SEED_IPS_README /\
  usable (normalizePNode_spec NOW) (primaryAnswer netB) = [] /\
  Forall (fun s => usable (normalizePNode_spec NOW) (seed_getPods netB s) = []) [] /\
  usable (normalizePNode_spec NOW) (seed_getPods netB "161.97.97.41") <> [] /\
  length (usable (normalizePNode_spec NOW) (seed_getPods netB "161.97.97.41")) = 5%nat /\
  discoverPNodesViaGossip (normalizePNode_spec NOW) SEED_IPS_README netB emptyWorld
  = (inr (usable (normalizePNode_spec NOW) (seed_getPods netB "161.97.97.41")),
     logged emptyWorld
       (primaryEvents netB ++
        flat_map (fun s => [NewPrpcClient s 5000; ClientGetPods s])
                 ([] ++ ["161.97.97.41"]))).
Proof.
  split_and!; [reflexivity|reflexivity|constructor|discriminate|reflexivity|].
  apply (discover_first_fallback (normalizePNode_spec NOW) SEED_IPS_README netB
           emptyWorld [] (drop 2 SEED_IPS_README) "161.97.97.41");
    [reflexivity|reflexivity|constructor|discriminate].
Defined.

(** Nothing answers: discovery returns the empty list after trying the
    primary endpoint twice and each of the seven fallback seeds once. *)
Lemma discover_never_throws_witness :
  usable (normalizePNode_spec NOW) (primaryAnswer deadNet) = [] /\
  Forall (fun s => usable (normalizePNode_spec NOW) (seed_getPods deadNet s) = [])
         (drop 1 SEED_IPS_README) /\
  discoverPNodesViaGossip (normalizePNode_spec NOW) SEED_IPS_README deadNet emptyWorld
  = (inr [],
     logged emptyWorld
       (primaryEvents deadNet ++
        flat_map (fun s => [NewPrpcClient s 5000; ClientGetPods s])
                 (drop 1 SEED_IPS_README))).
Proof.
  assert (Forall (fun s => usable (normalizePNode_spec NOW) (seed_getPods deadNet s) = [])
                 (drop 1 SEED_IPS_README)) as Hdead
    by (apply Forall_forall; reflexivity).
  split_and!; [reflexivity|exact Hdead|].
  exact (proj1 (proj2 (discover_never_throws (normalizePNode_spec NOW)
                         SEED_IPS_README deadNet emptyWorld))
               eq_refl Hdead).
Defined.

(** Scenario A: the primary endpoint's batch of three serves the call;
    all three records come back, X twice, and deduplication keeps two. *)
Lemma discover_returns_every_usable_record_witness :
  omap (usableNode (normalizePNode_spec NOW)) batchA <> [] /\
  primaryAnswer netA = inr (mkResponse (Some batchA)) /\
  discoverPNodesViaGossip (normalizePNode_spec NOW) SEED_IPS_README netA emptyWorld
  = (inr (omap (usableNode (normalizePNode_spec NOW)) batchA),
     logged emptyWorld (discoveryEvents (normalizePNode_spec NOW) SEED_IPS_README netA)) /\
  length (omap (usableNode (normalizePNode_spec NOW)) batchA) = 3%nat /\
  length (dedup (omap (usableNode (normalizePNode_spec NOW)) batchA)) = 2%nat.
Proof.
  split; [discriminate|]. split; [reflexivity|].
  split; [|split; reflexivity].
  exact (proj1 (discover_returns_every_usable_record (normalizePNode_spec NOW)
                  SEED_IPS_README netA emptyWorld batchA
                  ltac:(discriminate) (or_introl eq_refl))).
Defined.

(** Scenario A refutes C1 as stated: of three records, two with identity
    X, discovery returns all three, not the two with distinct
    identities, and X occurs twice in what it returns. *)
Lemma discover_keeps_duplicate_identity :
  exists nodes w',
    discoverPNodesViaGossip (normalizePNode_spec NOW) SEED_IPS_README netA emptyWorld
    = (inr nodes, w') /\
    pubkey <$> nodes = ["X"; "Y"; "X"] /\
    address <$> nodes
    = [Some "10.0.0.1:9001"; Some "10.0.0.2:9001"; Some "10.0.0.3:9001"] /\
    distinctIdentities nodes = 2%nat /\
    length nodes <> distinctIdentities nodes /\
    ~ NoDup (pubkey <$> nodes).
Proof.
  eexists _, _. split; [vm_compute; reflexivity|].
  split_and!; [reflexivity|reflexivity|by vm_compute|by vm_compute|].
  intros Hnd. apply NoDup_cons in Hnd as [Hx _]. apply Hx. right. left.
Qed.

(** ** The read paths *)

Section ReadPaths.
Variable normalizePNode : Pod -> Exn + PNode.
Variable SEED_IPS : list string.
Variable enrichNodesWithCachedStats :
  gmap string (Entry NodeStats) -> list PNode -> list PNode.
Variable net : Net.

Local Abbreviation discoverPNodesViaGossip :=
  (discoverPNodesViaGossip normalizePNode SEED_IPS net).
Local Abbreviation discovered := (discovered normalizePNode SEED_IPS net).
Local Abbreviation discoveryEvents :=
  (discoveryEvents normalizePNode SEED_IPS net).
Local Abbreviation getAllPNodes :=
  (getAllPNodes normalizePNode SEED_IPS enrichNodesWithCachedStats net).
Local Abbreviation getPNodeByPubkey :=
  (getPNodeByPubkey normalizePNode SEED_IPS enrichNodesWithCachedStats net).
Local Abbreviation getNodeStatsByPubkey :=
  (getNodeStatsByPubkey normalizePNode SEED_IPS enrichNodesWithCachedStats net).

(** C2. On a cache miss, with an enrichment merge that leaves the
    pubkeys as they are, the list [getAllPNodes] writes to the cache
    (with the 30 s TTL) and the list it returns carry no pubkey
    twice: of the nodes discovery produced, the ones without a pubkey
    are skipped and, for each pubkey, the first node in discovery
    order is kept, in order of first appearance. *)
Theorem getAllPNodes_miss_unique (w : World) :
  (forall stats l, pubkey <$> enrichNodesWithCachedStats stats l = pubkey <$> l) ->
  nodeCache w !! CACHE_KEY = None ->
  exists nodes w1 returned w',
    discoverPNodesViaGossip w = (inr nodes, w1) /\
    getAllPNodes w = (inr returned, w') /\
    nodeCache w' !! CACHE_KEY = Some (mkEntry (dedup nodes) 30000) /\
    pubkey <$> returned = pubkey <$> dedup nodes /\
    NoDup (pubkey <$> dedup nodes) /\
    NoDup (pubkey <$> returned) /\
    Forall (fun n => truthy (pubkey n) = true) (dedup nodes) /\
    dedup nodes `sublist_of` nodes /\
    (forall n, n ∈ dedup nodes -> findByPubkey (pubkey n) nodes = Some n) /\
    (forall m, m ∈ nodes -> truthy (pubkey m) = true ->
               pubkey m ∈ pubkey <$> dedup nodes).
Proof.
  intros Henrich Hmiss.
  eexists discovered, _, _, _. rewrite discover_spec, getAllPNodes_miss by done.
  rewrite !dedup_firstSeen. split_and!; [done|done|..].
  - simpl. by rewrite lookup_insert_eq.
  - apply Henrich.
  - apply firstSeen_NoDup.
  - rewrite Henrich. apply firstSeen_NoDup.
  - apply Forall_forall. intros n Hn. by apply firstSeen_elem in Hn as [? _].
  - apply firstSeen_sublist.
  - intros n. apply firstSeen_find.
  - intros m Hm Ht. apply firstSeen_complete; [done..|]. apply not_elem_of_empty.
Qed.

(** C7. Whichever way [getAllPNodes] returns, what it returns is the
    output of the enrichment merge: on a hit of the node-set cache,
    the merge of the cached list; on a miss, the merge of the list it
    has just discovered, deduplicated and cached. *)
Theorem getAllPNodes_always_enriches (w : World) :
  exists l w',
    getAllPNodes w = (inr (enrichNodesWithCachedStats (statsCache w') l), w') /\
    match nodeCache w !! CACHE_KEY with
    | Some e => l = value e /\ w' = w
    | None =>
        exists nodes w1,
          discoverPNodesViaGossip w = (inr nodes, w1) /\
          l = dedup nodes /\
          w' = mkWorld (<[CACHE_KEY := mkEntry l 30000]> (nodeCache w1))
                       (statsCache w1) (netlog w1)
    end.
Proof.
  destruct (nodeCache w !! CACHE_KEY) as [e|] eqn:He.
  - exists (value e), w. by rewrite (getAllPNodes_hit _ _ _ _ _ _ He).
  - exists (dedup discovered),
      (mkWorld (<[CACHE_KEY := mkEntry (dedup discovered) 30000]> (nodeCache w))
               (statsCache w) (netlog w ++ discoveryEvents)).
    rewrite getAllPNodes_miss by done.
    split; [done|]. eexists _, _. by rewrite discover_spec.
Qed.

(** C9. [getPNodeByPubkey] returns, in the world [getAllPNodes]
    leaves, the first node of the list [getAllPNodes] returns whose
    pubkey is the one asked for, and null when the list has none; it
    never throws. *)
Theorem getPNodeByPubkey_first_match (key : string) (w : World) :
  exists nodes w',
    getAllPNodes w = (inr nodes, w') /\
    getPNodeByPubkey key w = (inr (findByPubkey key nodes), w') /\
    (forall n, findByPubkey key nodes = Some n <->
               exists before after,
                 nodes = before ++ n :: after /\ pubkey n = key /\
                 Forall (fun m => pubkey m <> key) before) /\
    ((forall n, n ∈ nodes -> pubkey n <> key) ->
     getPNodeByPubkey key w = (inr None, w')).
Proof.
  destruct (getAllPNodes_total normalizePNode SEED_IPS
              enrichNodesWithCachedStats net w) as (nodes & w' & evs & Hall & _).
  exists nodes, w'. split_and!; [done|by apply getPNodeByPubkey_unfold|..].
  - intros n. apply findByPubkey_Some.
  - intros Habsent. rewrite (getPNodeByPubkey_unfold _ _ _ _ _ _ _ _ Hall).
    by apply findByPubkey_None in Habsent as ->.
Qed.
End ReadPaths.

(** ** Per-node stats *)

Section NodeStats.
Variable normalizePNode : Pod -> Exn + PNode.
Variable SEED_IPS : list string.
Variable enrichNodesWithCachedStats :
  gmap string (Entry NodeStats) -> list PNode -> list PNode.
Variable net : Net.

Local Abbreviation getAllPNodes :=
  (getAllPNodes normalizePNode SEED_IPS enrichNodesWithCachedStats net).
Local Abbreviation getNodeStatsByPubkey :=
  (getNodeStatsByPubkey normalizePNode SEED_IPS enrichNodesWithCachedStats net).

Lemma getNodeStats_cached key w e :
  statsCache w !! STATS_CACHE_KEY key = Some e ->
  getNodeStatsByPubkey key w = (inr (Some (value e)), w).
Proof.
  intros He. unfold getNodeStatsByPubkey, bind, statsCache_get.
  by rewrite He.
Qed.

Lemma getNodeStats_uncached key w nodes w1 :
  statsCache w !! STATS_CACHE_KEY key = None ->
  getAllPNodes w = (inr nodes, w1) ->
  getNodeStatsByPubkey key w
  = match findByPubkey key nodes with
    | Some node =>
        if bool_decide (status node = online) then
          match js_or (address node) (ip node) with
          | Some a => if truthy a then fetched net key (split_head a) w1
                      else (inr None, w1)
          | None => (inr None, w1)
          end
        else (inr None, w1)
    | None => (inr None, w1)
    end.
Proof.
  intros He Hall.
  unfold getNodeStatsByPubkey, bind at 1, statsCache_get.
  rewrite He; simpl. unfold try_catch.
  unfold bind at 1.
  rewrite (getPNodeByPubkey_unfold _ _ _ _ _ _ _ _ Hall).
  destruct (findByPubkey key nodes) as [node|]; [|done].
  destruct (bool_decide (status node = online)); simpl; [|done].
  destruct (js_or (address node) (ip node)) as [a|]; [|done].
  destruct (truthy a); simpl; [|done].
  unfold fetched, bind, rpc, emit, bind, statsCache_set, ret, logged; simpl.
  rewrite <- app_assoc; simpl.
  by destruct (node_getStats net (split_head a)) as [e|[s|]].
Qed.

(** C5, as the code has it. For a pubkey whose node in
    [getAllPNodes()] is not online, [getNodeStatsByPubkey] makes no
    request of the node, neither a client for it nor a stats fetch,
    and writes nothing to the stats cache. It returns null when the
    stats cache has no entry for the pubkey; an entry still in the
    stats cache is returned as it is. *)
Theorem offline_node_stats_no_fetch (key : string) (w : World)
    (nodes : list PNode) (w1 : World) (node : PNode) :
  getAllPNodes w = (inr nodes, w1) ->
  findByPubkey key nodes = Some node ->
  status node <> online ->
  match statsCache w !! STATS_CACHE_KEY key with
  | Some e => getNodeStatsByPubkey key w = (inr (Some (value e)), w)
  | None => getNodeStatsByPubkey key w = (inr None, w1)
  end /\
  statsCache (getNodeStatsByPubkey key w).2 = statsCache w /\
  exists evs,
    netlog (getNodeStatsByPubkey key w).2 = netlog w ++ evs /\
    Forall gossipEvent evs.
Proof.
  intros Hall Hfind Hoff.
  destruct (getAllPNodes_total normalizePNode SEED_IPS
              enrichNodesWithCachedStats net w)
    as (nodes' & w1' & evs & Hall' & Hstats & Hlog & Hevs).
  rewrite Hall in Hall'. simplify_eq.
  destruct (statsCache w !! STATS_CACHE_KEY key) as [e|] eqn:He.
  - rewrite (getNodeStats_cached _ _ _ He). split_and!; [done..|].
    exists []. by rewrite app_nil_r.
  - rewrite (getNodeStats_uncached _ _ _ _ He Hall), Hfind.
    rewrite bool_decide_eq_false_2 by done. split_and!; [done..|].
    by exists evs.
Qed.

(** C8. The stats cache changes only by a successful stats fetch,
    which is written under the key of the pubkey with the 120 s TTL.
    When the node is online and has an address, the fetch is made:
    stats that arrive are cached and returned; a fetch that throws,
    or that brings nothing, returns null and leaves the stats cache
    as it was. *)
Theorem stats_cached_on_success_only (key : string) (w : World) :
  ((exists host s,
      node_getStats net host = inr (Some s) /\
      (getNodeStatsByPubkey key w).1 = inr (Some s) /\
      statsCache (getNodeStatsByPubkey key w).2
      = <[STATS_CACHE_KEY key := mkEntry s 120000]> (statsCache w))
   \/ statsCache (getNodeStatsByPubkey key w).2 = statsCache w) /\
  (forall nodes w1 node a,
     statsCache w !! STATS_CACHE_KEY key = None ->
     getAllPNodes w = (inr nodes, w1) ->
     findByPubkey key nodes = Some node ->
     status node = online ->
     js_or (address node) (ip node) = Some a ->
     truthy a = true ->
     match node_getStats net (split_head a) with
     | inr (Some s) =>
         getNodeStatsByPubkey key w
         = (inr (Some s),
            mkWorld (nodeCache w1)
                    (<[STATS_CACHE_KEY key := mkEntry s 120000]> (statsCache w))
                    (netlog w1 ++ [NewPrpcClient (split_head a) 8000;
                                   ClientGetStats (split_head a)]))
     | _ =>
         getNodeStatsByPubkey key w
         = (inr None,
            mkWorld (nodeCache w1) (statsCache w)
                    (netlog w1 ++ [NewPrpcClient (split_head a) 8000;
                                   ClientGetStats (split_head a)]))
     end).
Proof.
  destruct (getAllPNodes_total normalizePNode SEED_IPS
              enrichNodesWithCachedStats net w)
    as (nodes & w1 & evs & Hall & Hstats & Hlog & Hevs).
  split.
  - destruct (statsCache w !! STATS_CACHE_KEY key) as [e|] eqn:He.
    { right. by rewrite (getNodeStats_cached _ _ _ He). }
    rewrite (getNodeStats_uncached _ _ _ _ He Hall).
    destruct (findByPubkey key nodes) as [node|]; [|by right].
    destruct (bool_decide (status node = online)); [|by right].
    destruct (js_or (address node) (ip node)) as [a|]; [|by right].
    destruct (truthy a); [|by right].
    unfold fetched.
    destruct (node_getStats net (split_head a)) as [e|[s|]] eqn:Hfetch;
      simpl; [by right| |by right].
    left. exists (split_head a), s. by rewrite Hstats.
  - intros nodes' w1' node a He Hall' Hfind Hon Haddr Ha.
    rewrite Hall in Hall'. simplify_eq.
    rewrite (getNodeStats_uncached _ _ _ _ He Hall), Hfind, Haddr, Ha.
    rewrite bool_decide_eq_true_2 by done. unfold fetched, logged.
    rewrite Hstats.
    by destruct (node_getStats net (split_head a)) as [e|[s|]].
Qed.
End NodeStats.

(** ** The read paths on the scenarios *)

Lemma enrich_spec_pubkeys stats l :
  pubkey <$> enrichNodesWithCachedStats_spec stats l = pubkey <$> l.
Proof.
  unfold enrichNodesWithCachedStats_spec. induction l as [|n l IH]; csimpl; [done|].
  f_equal; [|done]. by destruct (stats !! STATS_CACHE_KEY (pubkey n)).
Qed.

(** Scenario A through [getAllPNodes]: of the three records, two nodes
    are cached and returned, X with the address it was first seen at. *)
Example getAllPNodes_scenario_A :
  exists returned w',
    getAllPNodes (normalizePNode_spec NOW) SEED_IPS_README
                 enrichNodesWithCachedStats_spec netA emptyWorld
    = (inr returned, w') /\
    value <$> nodeCache w' !! CACHE_KEY = Some returned /\
    pubkey <$> returned = ["X"; "Y"] /\
    address <$> returned = [Some "10.0.0.1:9001"; Some "10.0.0.2:9001"].
Proof. eexists _, _. split; [vm_compute; reflexivity|]. by vm_compute. Qed.

Lemma getAllPNodes_miss_unique_witness :
  (forall stats l, pubkey <$> enrichNodesWithCachedStats_spec stats l = pubkey <$> l) /\
  nodeCache emptyWorld !! CACHE_KEY = None /\
  exists nodes w1 returned w',
    discoverPNodesViaGossip (normalizePNode_spec NOW) SEED_IPS_README netA emptyWorld
    = (inr nodes, w1) /\
    getAllPNodes (normalizePNode_spec NOW) SEED_IPS_README
                 enrichNodesWithCachedStats_spec netA emptyWorld
    = (inr returned, w') /\
    nodeCache w' !! CACHE_KEY = Some (mkEntry (dedup nodes) 30000) /\
    pubkey <$> returned = pubkey <$> dedup nodes /\
    NoDup (pubkey <$> dedup nodes) /\
    NoDup (pubkey <$> returned) /\
    Forall (fun n => truthy (pubkey n) = true) (dedup nodes) /\
    dedup nodes `sublist_of` nodes /\
    (forall n, n ∈ dedup nodes -> findByPubkey (pubkey n) nodes = Some n) /\
    (forall m, m ∈ nodes -> truthy (pubkey m) = true ->
               pubkey m ∈ pubkey <$> dedup nodes).
Proof.
  split_and!; [apply enrich_spec_pubkeys|reflexivity|].
  apply (getAllPNodes_miss_unique (normalizePNode_spec NOW) SEED_IPS_README
           enrichNodesWithCachedStats_spec netA emptyWorld);
    [apply enrich_spec_pubkeys|reflexivity].
Defined.

(** A pubkey that no node carries: null, not an exception. *)
Lemma getPNodeByPubkey_first_match_witness :
  exists nodes w',
    getAllPNodes (normalizePNode_spec NOW) SEED_IPS_README
                 enrichNodesWithCachedStats_spec deadNet worldC
    = (inr nodes, w') /\
    (forall n, n ∈ nodes -> pubkey n <> "Z") /\
    getPNodeByPubkey (normalizePNode_spec NOW) SEED_IPS_README
                     enrichNodesWithCachedStats_spec deadNet "Z" worldC
    = (inr None, w').
Proof.
  destruct (getPNodeByPubkey_first_match (normalizePNode_spec NOW) SEED_IPS_README
              enrichNodesWithCachedStats_spec deadNet "Z" worldC)
    as (nodes & w' & Hall & _ & _ & Habsent).
  exists nodes, w'.
  assert (forall n, n ∈ nodes -> pubkey n <> "Z") as Hnone.
  { vm_compute in Hall. injection Hall as <- _.
    by intros n ->%list_elem_of_singleton. }
  split_and!; [exact Hall|exact Hnone|exact (Habsent Hnone)].
Defined.

(** Scenario C: X is offline and has no cached stats; asking for its
    stats returns null, and no request is made. *)
Lemma offline_node_stats_no_fetch_witness :
  getAllPNodes (normalizePNode_spec NOW) SEED_IPS_README
               enrichNodesWithCachedStats_spec deadNet worldC
  = (inr [nodeX_offline], worldC) /\
  findByPubkey "X" [nodeX_offline] = Some nodeX_offline /\
  status nodeX_offline <> online /\
  getNodeStatsByPubkey (normalizePNode_spec NOW) SEED_IPS_README
                       enrichNodesWithCachedStats_spec deadNet "X" worldC
  = (inr None, worldC).
Proof.
  split_and!; [reflexivity|reflexivity|discriminate|].
  exact (proj1 (offline_node_stats_no_fetch (normalizePNode_spec NOW) SEED_IPS_README
                  enrichNodesWithCachedStats_spec deadNet "X" worldC
                  [nodeX_offline] worldC nodeX_offline
                  eq_refl eq_refl (fun H => ltac:(discriminate H)))).
Defined.

(** Scenario C with stats of X still cached refutes C5 as stated: X is
    in [getAllPNodes()] and offline, and its stats are returned, not
    null. *)
Lemma offline_node_stats_served_from_cache :
  getAllPNodes (normalizePNode_spec NOW) SEED_IPS_README
               enrichNodesWithCachedStats_spec deadNet worldC_warm
  = (inr (enrichNodesWithCachedStats_spec (statsCache worldC_warm) [nodeX_offline]),
     worldC_warm) /\
  (exists node,
     findByPubkey "X" (enrichNodesWithCachedStats_spec (statsCache worldC_warm)
                         [nodeX_offline]) = Some node /\
     status node = offline) /\
  getNodeStatsByPubkey (normalizePNode_spec NOW) SEED_IPS_README
                       enrichNodesWithCachedStats_spec deadNet "X" worldC_warm
  = (inr (Some statsX), worldC_warm) /\
  getNodeStatsByPubkey (normalizePNode_spec NOW) SEED_IPS_README
                       enrichNodesWithCachedStats_spec deadNet "X" worldC_warm
  <> (inr None, worldC_warm).
Proof.
  split_and!.
  - reflexivity.
  - eexists. split; [vm_compute; reflexivity|reflexivity].
  - reflexivity.
  - vm_compute. discriminate.
Qed.

(** Scenario D: Y is online; its stats arrive and are cached under
    [node_stats_Y] for 120 s. *)
Lemma stats_cached_on_success_only_witness :
  statsCache worldD !! STATS_CACHE_KEY "Y" = None /\
  getAllPNodes (normalizePNode_spec NOW) SEED_IPS_README
               enrichNodesWithCachedStats_spec netD worldD
  = (inr [nodeY_online], worldD) /\
  findByPubkey "Y" [nodeY_online] = Some nodeY_online /\
  status nodeY_online = online /\
  js_or (address nodeY_online) (ip nodeY_online) = Some "10.0.0.2:9001" /\
  truthy "10.0.0.2:9001" = true /\
  getNodeStatsByPubkey (normalizePNode_spec NOW) SEED_IPS_README
                       enrichNodesWithCachedStats_spec netD "Y" worldD
  = (inr (Some statsY),
     mkWorld (nodeCache worldD)
             (<["node_stats_Y" := mkEntry statsY 120000]> (statsCache worldD))
             (netlog worldD ++ [NewPrpcClient "10.0.0.2" 8000;
                                ClientGetStats "10.0.0.2"])).
Proof.
  split_and!; [reflexivity..|].
  exact (proj2 (stats_cached_on_success_only (normalizePNode_spec NOW)
                  SEED_IPS_README enrichNodesWithCachedStats_spec netD "Y" worldD)
               [nodeY_online] worldD nodeY_online "10.0.0.2:9001"
               eq_refl eq_refl eq_refl eq_refl eq_refl eq_refl).
Defined.

(** Scenario D with a node that does not answer: null, and the stats
    cache is as it was. *)
Example stats_fetch_timeout_not_cached :
  getNodeStatsByPubkey (normalizePNode_spec NOW) SEED_IPS_README
                       enrichNodesWithCachedStats_spec deadNet "Y" worldD
  = (inr None,
     logged worldD [NewPrpcClient "10.0.0.2" 8000; ClientGetStats "10.0.0.2"]).
Proof. reflexivity. Qed.


(** ** More on discovery *)

Lemma flat_map_pair_length (seeds : list string) :
  length (flat_map (fun s => [NewPrpcClient s 5000; ClientGetPods s]) seeds)
  = (2 * length seeds)%nat.
Proof. induction seeds as [|s seeds IH]; simpl; lia. Qed.

Section DiscoveryMore.
Variable normalizePNode : Pod -> Exn + PNode.
Variable SEED_IPS : list string.
Variable net : Net.

Local Abbreviation usable := (usable normalizePNode).
Local Abbreviation fallbackYield := (fallbackYield normalizePNode net).
Local Abbreviation fallbackEvents := (fallbackEvents normalizePNode net).
Local Abbreviation discoverPNodesViaGossip :=
  (discoverPNodesViaGossip normalizePNode SEED_IPS).
Local Abbreviation discovered := (discovered normalizePNode SEED_IPS).
Local Abbreviation discoveryEvents := (discoveryEvents normalizePNode SEED_IPS).

Lemma fallbackEvents_prefix seeds :
  exists k,
    fallbackEvents seeds
    = flat_map (fun s => [NewPrpcClient s 5000; ClientGetPods s]) (take k seeds).
Proof.
  induction seeds as [|seed rest [k IH]]; simpl.
  - by exists 0%nat.
  - destruct (usable (seed_getPods net seed)).
    + exists (S k). simpl. by rewrite IH.
    + by exists 1%nat.
Qed.

(** X1. When the primary endpoint yields a usable node, discovery
    returns the primary endpoint's usable nodes and contacts no
    fallback seed: the only requests are those to the primary
    endpoint. *)
Theorem discover_primary_short_circuit (w : World) :
  usable (primaryAnswer net) <> [] ->
  discoverPNodesViaGossip net w
  = (inr (usable (primaryAnswer net)), logged w (primaryEvents net)).
Proof.
  intros Hprimary. rewrite discover_spec. unfold discovered, discoveryEvents.
  destruct (usable (primaryAnswer net)); [done|]. by rewrite app_nil_r.
Qed.

(** X2. When the listing with stats returns, the plain listing of the
    primary endpoint is never requested, not even when the listing with
    stats had nothing usable: the log discovery leaves has no
    [PrimaryGetPods] among the requests it adds, and whatever the plain
    listing would have answered, discovery returns the same nodes and
    leaves the same log. *)
Theorem discover_ignores_plain_listing (w : World) (r : Response)
    (other : Exn + Response) :
  primary_getPodsWithStats net = inr r ->
  exists nodes evs,
    discoverPNodesViaGossip net w = (inr nodes, logged w evs) /\
    (PrimaryGetPods ∉ evs) /\
    discoverPNodesViaGossip
      (mkNet (primary_getPodsWithStats net) other (seed_getPods net)
             (node_getStats net)) w
    = (inr nodes, logged w evs).
Proof.
  intros Hstats. exists (discovered net), (discoveryEvents net). split_and!.
  - apply discover_spec.
  - unfold discoveryEvents, primaryEvents. rewrite Hstats.
    intros [Hin|Hin]%elem_of_app.
    + by apply list_elem_of_singleton in Hin.
    + destruct (usable (primaryAnswer net)); [|by apply elem_of_nil in Hin].
      destruct (fallbackEvents_prefix (drop 1 SEED_IPS)) as [k Hk].
      rewrite Hk in Hin. apply list_elem_of_In, in_flat_map in Hin.
      destruct Hin as (s & _ & [Hs|[Hs|[]]]); discriminate.
  - rewrite discover_spec. unfold discovered, discoveryEvents, primaryAnswer,
      primaryEvents; simpl. by rewrite Hstats.
Qed.

Lemma fallback_requests_NoDup (seeds : list string) :
  NoDup seeds ->
  NoDup (flat_map (fun s => [NewPrpcClient s 5000; ClientGetPods s]) seeds).
Proof.
  induction 1 as [|s seeds Hnotin Hnd IH]; simpl; [constructor|].
  assert (forall e,
            e ∈ flat_map (fun s => [NewPrpcClient s 5000; ClientGetPods s]) seeds ->
            match e with
            | NewPrpcClient h _ | ClientGetPods h => h ∈ seeds
            | _ => False
            end) as Hhosts.
  { intros e (h & Hh & [<-|[<-|[]]])%list_elem_of_In%in_flat_map;
      by apply list_elem_of_In. }
  apply NoDup_cons. split.
  - intros [Hin|Hin]%elem_of_cons; [discriminate|]. by apply Hhosts in Hin.
  - apply NoDup_cons. split; [|done]. intros Hin. by apply Hhosts in Hin.
Qed.

(** X3. Whatever the endpoints answer, the fallback requests of one
    discovery are those of a prefix of the seeds after the first, in
    their order: a client with the 5 s timeout and one listing per seed
    tried; with the one or two requests to the primary endpoint that
    makes at most [2 + 2 * (SEED_IPS.length - 1)] entries. When no seed
    is listed twice, no fallback request is made twice and the first
    seed is never asked through a fallback client. *)
Theorem discover_requests_bounded (w : World) :
  exists nodes k,
    discoverPNodesViaGossip net w
    = (inr nodes,
       logged w (primaryEvents net ++
                 flat_map (fun s => [NewPrpcClient s 5000; ClientGetPods s])
                          (take k (drop 1 SEED_IPS)))) /\
    (length (primaryEvents net ++
             flat_map (fun s => [NewPrpcClient s 5000; ClientGetPods s])
                      (take k (drop 1 SEED_IPS)))
     <= 2 + 2 * (length SEED_IPS - 1))%nat /\
    (NoDup SEED_IPS ->
     NoDup (flat_map (fun s => [NewPrpcClient s 5000; ClientGetPods s])
                     (take k (drop 1 SEED_IPS))) /\
     forall first t,
       head SEED_IPS = Some first ->
       (NewPrpcClient first t
          ∉ primaryEvents net ++
            flat_map (fun s => [NewPrpcClient s 5000; ClientGetPods s])
                     (take k (drop 1 SEED_IPS))) /\
       ClientGetPods first
         ∉ (primaryEvents net ++
            flat_map (fun s => [NewPrpcClient s 5000; ClientGetPods s])
                     (take k (drop 1 SEED_IPS)))).
Proof.
  destruct (fallbackEvents_prefix (drop 1 SEED_IPS)) as [k Hk].
  assert (forall j, (length (primaryEvents net ++
             flat_map (fun s => [NewPrpcClient s 5000; ClientGetPods s])
                      (take j (drop 1 SEED_IPS)))
     <= 2 + 2 * (length SEED_IPS - 1))%nat) as Hbound.
  { intros j. rewrite length_app, flat_map_pair_length, length_take, length_drop.
    unfold primaryEvents. destruct (primary_getPodsWithStats net); simpl; lia. }
  assert (forall j, NoDup SEED_IPS ->
     NoDup (flat_map (fun s => [NewPrpcClient s 5000; ClientGetPods s])
                     (take j (drop 1 SEED_IPS))) /\
     forall first t,
       head SEED_IPS = Some first ->
       (NewPrpcClient first t
          ∉ primaryEvents net ++
            flat_map (fun s => [NewPrpcClient s 5000; ClientGetPods s])
                     (take j (drop 1 SEED_IPS))) /\
       ClientGetPods first
         ∉ (primaryEvents net ++
            flat_map (fun s => [NewPrpcClient s 5000; ClientGetPods s])
                     (take j (drop 1 SEED_IPS)))) as Hdistinct.
  { intros j Hnd. split.
    - apply fallback_requests_NoDup.
      eapply sublist_NoDup; [exact Hnd|].
      etrans; [apply sublist_take|apply sublist_drop].
    - intros first t Hhead.
      destruct SEED_IPS as [|s0 rest]; [done|]. injection Hhead as ->.
      apply NoDup_cons in Hnd as [Hnotin _]. simpl drop. rewrite drop_0.
      assert (first ∉ take j rest) as Hfirst.
      { intros Hin. apply Hnotin.
        eapply elem_of_submseteq; [done|]. apply sublist_submseteq, sublist_take. }
      split; intros [Hin|Hin]%elem_of_app.
      + unfold primaryEvents in Hin.
        destruct (primary_getPodsWithStats net);
          repeat (apply elem_of_cons in Hin as [Hin|Hin]; [discriminate|]);
          by apply elem_of_nil in Hin.
      + apply list_elem_of_In, in_flat_map in Hin as (h & Hh & [Heq|[Heq|[]]]);
          [|discriminate]. injection Heq as -> _. by apply list_elem_of_In in Hh.
      + unfold primaryEvents in Hin.
        destruct (primary_getPodsWithStats net);
          repeat (apply elem_of_cons in Hin as [Hin|Hin]; [discriminate|]);
          by apply elem_of_nil in Hin.
      + apply list_elem_of_In, in_flat_map in Hin as (h & Hh & [Heq|[Heq|[]]]);
          [discriminate|]. injection Heq as ->. by apply list_elem_of_In in Hh. }
  rewrite discover_spec. unfold discoveryEvents.
  destruct (usable (primaryAnswer net)) eqn:Hu.
  - exists (discovered net), k. rewrite Hk. split_and!; [done|apply Hbound|apply Hdistinct].
  - exists (discovered net), 0%nat.
    split_and!; [done|apply (Hbound 0%nat)|apply (Hdistinct 0%nat)].
Qed.
End DiscoveryMore.

Lemma discover_primary_short_circuit_witness :
  usable (normalizePNode_spec NOW) (primaryAnswer netPlain) <> [] /\
  discoverPNodesViaGossip (normalizePNode_spec NOW) SEED_IPS_README netPlain emptyWorld
  = (inr (usable (normalizePNode_spec NOW) (primaryAnswer netPlain)),
     logged emptyWorld [PrimaryGetPodsWithStats; PrimaryGetPods]).
Proof.
  split; [discriminate|].
  apply (discover_primary_short_circuit (normalizePNode_spec NOW) SEED_IPS_README
           netPlain emptyWorld). discriminate.
Defined.

(** Scenario A, and the same with a plain listing that would answer
    scenario B's batch: three nodes and one request either way. *)
Lemma discover_ignores_plain_listing_witness :
  primary_getPodsWithStats netA = inr (mkResponse (Some batchA)) /\
  exists nodes evs,
    discoverPNodesViaGossip (normalizePNode_spec NOW) SEED_IPS_README netA emptyWorld
    = (inr nodes, logged emptyWorld evs) /\
    (PrimaryGetPods ∉ evs) /\
    discoverPNodesViaGossip (normalizePNode_spec NOW) SEED_IPS_README
      (mkNet (primary_getPodsWithStats netA) (inr (mkResponse (Some batchB)))
             (seed_getPods netA) (node_getStats netA)) emptyWorld
    = (inr nodes, logged emptyWorld evs).
Proof.
  split; [reflexivity|].
  exact (discover_ignores_plain_listing (normalizePNode_spec NOW)
           SEED_IPS_README netA emptyWorld (mkResponse (Some batchA))
           (inr (mkResponse (Some batchB))) eq_refl).
Defined.

Lemma SEED_IPS_README_NoDup : NoDup SEED_IPS_README.
Proof.
  unfold SEED_IPS_README.
  repeat (apply NoDup_cons; split;
          [intros Hin; repeat (apply elem_of_cons in Hin as [Hin|Hin]; [discriminate|]);
           by apply elem_of_nil in Hin|]).
  constructor.
Qed.

(** The seeds of the README, nothing answering: seven fallback seeds
    tried, each once, the first seed through the primary client only. *)
Lemma discover_requests_bounded_witness :
  NoDup SEED_IPS_README /\
  head SEED_IPS_README = Some "173.212.220.65" /\
  exists evs,
    discoverPNodesViaGossip (normalizePNode_spec NOW) SEED_IPS_README deadNet emptyWorld
    = (inr [], logged emptyWorld evs) /\
    length evs = 16%nat /\
    (NewPrpcClient "173.212.220.65" 5000 ∉ evs) /\
    ClientGetPods "173.212.220.65" ∉ evs.
Proof.
  split; [exact SEED_IPS_README_NoDup|]. split; [reflexivity|].
  destruct (discover_requests_bounded (normalizePNode_spec NOW) SEED_IPS_README
              deadNet emptyWorld) as (nodes & k & Hrun & _ & Hdistinct).
  destruct (Hdistinct SEED_IPS_README_NoDup) as [_ Hfirst].
  destruct (Hfirst "173.212.220.65" 5000 eq_refl) as [Hclient Hlisting].
  eexists. split; [reflexivity|]. split; [reflexivity|].
  assert (logged emptyWorld
            (primaryEvents deadNet ++
             flat_map (fun s => [NewPrpcClient s 5000; ClientGetPods s])
                      (take k (drop 1 SEED_IPS_README)))
          = (discoverPNodesViaGossip (normalizePNode_spec NOW) SEED_IPS_README
               deadNet emptyWorld).2) as Hlog by (by rewrite Hrun).
  vm_compute in Hlog. injection Hlog as Hlog.
  change (primaryEvents deadNet) with [PrimaryGetPodsWithStats; PrimaryGetPods]
    in Hclient, Hlisting.
  change (drop 1 SEED_IPS_README) with
    ["161.97.97.41"; "192.190.136.36"; "192.190.136.38"; "207.244.255.1";
     "192.190.136.28"; "192.190.136.29"; "173.212.203.145"] in Hclient, Hlisting.
  split.
  - intros Hin. apply Hclient.
    repeat (apply elem_of_cons in Hin as [Hin|Hin]; [discriminate|]).
    by apply elem_of_nil in Hin.
  - intros Hin. apply Hlisting.
    repeat (apply elem_of_cons in Hin as [Hin|Hin]; [discriminate|]).
    by apply elem_of_nil in Hin.
Defined.

(** ** More on deduplication *)

Lemma firstSeen_id nodes : forall seen,
  Forall (fun n => truthy (pubkey n) = true) nodes ->
  NoDup (pubkey <$> nodes) ->
  (forall n, n ∈ nodes -> pubkey n ∉ seen) ->
  firstSeen seen nodes = nodes.
Proof.
  induction nodes as [|node rest IH]; intros seen Hall Hnd Hseen; [done|].
  apply Forall_cons in Hall as [Ht Hall].
  rewrite fmap_cons in Hnd. apply NoDup_cons in Hnd as [Hnotin Hnd].
  rewrite firstSeen_cons_keep; [|done|apply Hseen; left].
  f_equal. apply IH; [done..|].
  intros n Hn [Heq%elem_of_singleton|Hin]%elem_of_union.
  - apply Hnotin. rewrite <- Heq. apply list_elem_of_fmap. eauto.
  - eapply Hseen; [right; exact Hn|done].
Qed.

(** X4. Deduplicating is idempotent, and a list that already has a
    non-empty pubkey on every node and no pubkey twice comes out as it
    went in. *)
Theorem dedup_idempotent (nodes : list PNode) :
  dedup (dedup nodes) = dedup nodes /\
  (Forall (fun n => truthy (pubkey n) = true) nodes ->
   NoDup (pubkey <$> nodes) ->
   dedup nodes = nodes).
Proof.
  assert (forall l, Forall (fun n => truthy (pubkey n) = true) l ->
                    NoDup (pubkey <$> l) -> dedup l = l) as Hfix.
  { intros l Hall Hnd. rewrite dedup_firstSeen.
    apply firstSeen_id; [done..|]. intros n _. apply not_elem_of_empty. }
  split; [|apply Hfix].
  apply Hfix.
  - rewrite dedup_firstSeen. apply Forall_forall.
    intros n Hn. by apply firstSeen_elem in Hn as [? _].
  - rewrite dedup_firstSeen. apply firstSeen_NoDup.
Qed.

Lemma dedup_idempotent_witness :
  Forall (fun n => truthy (pubkey n) = true) [nodeX_offline; nodeY_online] /\
  NoDup (pubkey <$> [nodeX_offline; nodeY_online]) /\
  dedup [nodeX_offline; nodeY_online] = [nodeX_offline; nodeY_online].
Proof.
  assert (Forall (fun n => truthy (pubkey n) = true) [nodeX_offline; nodeY_online])
    as Hall by (by repeat constructor).
  assert (NoDup (pubkey <$> [nodeX_offline; nodeY_online])) as Hnd.
  { change (NoDup ["X"; "Y"]). apply NoDup_cons.
    split; [intros H%list_elem_of_singleton; discriminate|apply NoDup_singleton]. }
  split_and!; [exact Hall|exact Hnd|].
  exact (proj2 (dedup_idempotent [nodeX_offline; nodeY_online]) Hall Hnd).
Defined.


(** ** More on the read paths *)

Lemma findByPubkey_pubkey key nodes n :
  findByPubkey key nodes = Some n -> pubkey n = key.
Proof.
  intros Hfind. apply findByPubkey_Some in Hfind as (_ & _ & _ & Hk & _). exact Hk.
Qed.

Lemma findByPubkey_elem key nodes :
  key ∈ pubkey <$> nodes <-> exists n, findByPubkey key nodes = Some n.
Proof.
  destruct (findByPubkey key nodes) as [n|] eqn:Hfind.
  - split; [eauto|]. intros _.
    pose proof (findByPubkey_pubkey _ _ _ Hfind) as <-.
    apply findByPubkey_Some in Hfind as (before & after & -> & _ & _).
    apply list_elem_of_fmap. exists n. split; [done|].
    apply elem_of_app. right. left.
  - split; [|by intros [n ?]].
    intros (n & -> & Hn)%list_elem_of_fmap.
    by destruct (proj1 (findByPubkey_None _ _) Hfind n Hn).
Qed.

Lemma dedup_pubkeys nodes :
  Forall (fun n => truthy (pubkey n) = true) nodes ->
  forall key, key ∈ pubkey <$> dedup nodes <-> key ∈ pubkey <$> nodes.
Proof.
  intros Hall key. rewrite dedup_firstSeen. split.
  - intros (n & -> & Hn)%list_elem_of_fmap. apply list_elem_of_fmap.
    exists n. split; [done|].
    eapply elem_of_submseteq; [done|]. apply sublist_submseteq, firstSeen_sublist.
  - intros (m & -> & Hm)%list_elem_of_fmap.
    apply firstSeen_complete; [done| |apply not_elem_of_empty].
    by eapply Forall_forall in Hall.
Qed.

Lemma discovered_have_pubkey normalizePNode SEED_IPS net :
  Forall (fun n => truthy (pubkey n) = true) (discovered normalizePNode SEED_IPS net).
Proof.
  unfold discovered.
  destruct (usable normalizePNode (primaryAnswer net)) as [|n ns] eqn:Hu.
  - destruct (fallbackYield_batch normalizePNode net (drop 1 SEED_IPS))
      as [->|(seed & batch & _ & _ & ->)]; [constructor|apply omap_usable_truthy].
  - destruct (usable_batch normalizePNode (primaryAnswer net))
      as [Hnil|(batch & _ & Hy)]; [congruence|].
    rewrite <- Hu, Hy. apply omap_usable_truthy.
Qed.

Section ReadPathsMore.
Variable normalizePNode : Pod -> Exn + PNode.
Variable SEED_IPS : list string.
Variable enrichNodesWithCachedStats :
  gmap string (Entry NodeStats) -> list PNode -> list PNode.
Variable net : Net.

Local Abbreviation usable := (usable normalizePNode).
Local Abbreviation discovered := (discovered normalizePNode SEED_IPS net).
Local Abbreviation discoveryEvents :=
  (discoveryEvents normalizePNode SEED_IPS net).
Local Abbreviation getAllPNodes :=
  (getAllPNodes normalizePNode SEED_IPS enrichNodesWithCachedStats).
Local Abbreviation getPNodeByPubkey :=
  (getPNodeByPubkey normalizePNode SEED_IPS enrichNodesWithCachedStats).
Local Abbreviation getNodeStatsByPubkey :=
  (getNodeStatsByPubkey normalizePNode SEED_IPS enrichNodesWithCachedStats).
Local Abbreviation refreshPNodes :=
  (refreshPNodes normalizePNode SEED_IPS enrichNodesWithCachedStats).

(** X5. [refreshPNodes] discovers anew whatever the node-set cache
    holds: it returns the merge of the freshly discovered, deduplicated
    list, leaves that list in the cache under the 30 s TTL in place of
    any older entry, and leaves every other key and the stats cache as
    they were. *)
Theorem refreshPNodes_rediscovers (w : World) :
  refreshPNodes net w
  = (inr (enrichNodesWithCachedStats (statsCache w) (dedup discovered)),
     mkWorld (<[CACHE_KEY := mkEntry (dedup discovered) 30000]> (nodeCache w))
             (statsCache w) (netlog w ++ discoveryEvents)).
Proof.
  unfold refreshPNodes, bind at 1, nodeCache_delete.
  rewrite getAllPNodes_miss by (simpl; apply lookup_delete_eq).
  simpl. by rewrite insert_delete_eq.
Qed.

(** X7. A total failure of discovery is cached like any other result:
    on a cache miss with every endpoint failing or yielding nothing
    usable, [getAllPNodes] writes the empty list to the cache, and until
    that entry is gone the next call returns the merge of the empty
    list without a single request, even with every endpoint back. *)
Theorem getAllPNodes_caches_total_failure (w : World) (net' : Net) :
  nodeCache w !! CACHE_KEY = None ->
  usable (primaryAnswer net) = [] ->
  Forall (fun s => usable (seed_getPods net s) = []) (drop 1 SEED_IPS) ->
  exists w',
    getAllPNodes net w = (inr (enrichNodesWithCachedStats (statsCache w) []), w') /\
    nodeCache w' !! CACHE_KEY = Some (mkEntry [] 30000) /\
    getAllPNodes net' w' = (inr (enrichNodesWithCachedStats (statsCache w) []), w').
Proof.
  intros Hmiss Hprimary Hseeds.
  assert (discovered = []) as Hd.
  { unfold discovered. rewrite Hprimary.
    by destruct (fallbackYield_none normalizePNode net _ Hseeds) as [-> _]. }
  eexists. rewrite getAllPNodes_miss by done. rewrite Hd.
  split; [reflexivity|]. split; [simpl; apply lookup_insert_eq|].
  rewrite (getAllPNodes_hit _ _ _ net' _ (mkEntry [] 30000)); [done|].
  simpl. apply lookup_insert_eq.
Qed.

(** X8. On a cache miss, with an enrichment merge that leaves the
    pubkeys as they are, [getPNodeByPubkey] finds a node exactly for the
    pubkeys discovery has just seen on a usable record, and the node it
    finds carries the pubkey asked for. *)
Theorem getPNodeByPubkey_finds_discovered (key : string) (w : World) :
  (forall stats l, pubkey <$> enrichNodesWithCachedStats stats l = pubkey <$> l) ->
  nodeCache w !! CACHE_KEY = None ->
  (key ∈ pubkey <$> discovered ->
   exists n, (getPNodeByPubkey net key w).1 = inr (Some n) /\ pubkey n = key) /\
  (key ∉ pubkey <$> discovered ->
   (getPNodeByPubkey net key w).1 = inr None).
Proof.
  intros Henrich Hmiss.
  rewrite (getPNodeByPubkey_unfold _ _ _ _ _ _ _ _
             (getAllPNodes_miss _ _ _ _ _ Hmiss)); simpl.
  assert (Forall (fun n => truthy (pubkey n) = true) discovered) as Hall.
  { apply discovered_have_pubkey. }
  pose proof (findByPubkey_elem key
                (enrichNodesWithCachedStats (statsCache w) (dedup discovered)))
    as Hfind.
  rewrite Henrich, (dedup_pubkeys _ Hall) in Hfind. split.
  - intros Hin. apply Hfind in Hin as [n Hn]. exists n.
    split; [by rewrite Hn|]. by apply findByPubkey_pubkey in Hn.
  - intros Hnotin.
    destruct (findByPubkey key _) as [n|] eqn:Hn; [|done].
    destruct Hnotin. apply Hfind. eauto.
Qed.

(** X9. For a pubkey that no node of [getAllPNodes()] carries and that
    has no cached stats, [getNodeStatsByPubkey] returns null in the
    world the listing leaves: nothing is asked of any node and the
    stats cache is as it was. *)
Theorem stats_unknown_pubkey_no_fetch (key : string) (w : World)
    (nodes : list PNode) (w1 : World) :
  statsCache w !! STATS_CACHE_KEY key = None ->
  getAllPNodes net w = (inr nodes, w1) ->
  (forall n, n ∈ nodes -> pubkey n <> key) ->
  getNodeStatsByPubkey net key w = (inr None, w1) /\
  statsCache w1 = statsCache w /\
  exists evs, netlog w1 = netlog w ++ evs /\ Forall gossipEvent evs.
Proof.
  intros He Hall Habsent.
  rewrite (getNodeStats_uncached _ _ _ _ _ _ _ _ He Hall).
  apply findByPubkey_None in Habsent as ->. split; [done|].
  destruct (getAllPNodes_total normalizePNode SEED_IPS
              enrichNodesWithCachedStats net w)
    as (nodes' & w1' & evs & Hall' & Hstats & Hlog & Hevs).
  rewrite Hall in Hall'. simplify_eq. eauto.
Qed.

(** X11. The host asked for stats is the part before the colon of the
    node's [address]; a node whose [address] is missing or empty is
    asked at its [ip] instead; a node with neither gets null and no
    request at all. *)
Theorem stats_host_is_address_else_ip (key : string) (w : World)
    (nodes : list PNode) (w1 : World) (node : PNode) :
  statsCache w !! STATS_CACHE_KEY key = None ->
  getAllPNodes net w = (inr nodes, w1) ->
  findByPubkey key nodes = Some node ->
  status node = online ->
  getNodeStatsByPubkey net key w
  = match address node, ip node with
    | Some a, _ =>
        if truthy a then fetched net key (split_head a) w1
        else match ip node with
             | Some i => if truthy i then fetched net key (split_head i) w1
                         else (inr None, w1)
             | None => (inr None, w1)
             end
    | None, Some i =>
        if truthy i then fetched net key (split_head i) w1 else (inr None, w1)
    | None, None => (inr None, w1)
    end.
Proof.
  intros He Hall Hfind Hon.
  rewrite (getNodeStats_uncached _ _ _ _ _ _ _ _ He Hall), Hfind.
  rewrite bool_decide_eq_true_2 by done. unfold js_or.
  destruct (address node) as [a|]; simpl.
  - destruct (truthy a) eqn:Ha; [by rewrite Ha|].
    destruct (ip node) as [i|]; [|done]. by destruct (truthy i).
  - destruct (ip node) as [i|]; [|done]. by destruct (truthy i).
Qed.
End ReadPathsMore.

(** X6. A second [getAllPNodes] right after a first is served from the
    cache: it returns the same list and changes nothing, whatever the
    network would answer by then and whichever seeds are configured. *)
Theorem getAllPNodes_second_call_is_hit
    (normalizePNode : Pod -> Exn + PNode) (SEED_IPS SEED_IPS' : list string)
    (enrichNodesWithCachedStats :
       gmap string (Entry NodeStats) -> list PNode -> list PNode)
    (net net' : Net) (w : World) :
  getAllPNodes normalizePNode SEED_IPS' enrichNodesWithCachedStats net'
    (getAllPNodes normalizePNode SEED_IPS enrichNodesWithCachedStats net w).2
  = getAllPNodes normalizePNode SEED_IPS enrichNodesWithCachedStats net w.
Proof.
  destruct (nodeCache w !! CACHE_KEY) as [e|] eqn:He.
  - rewrite (getAllPNodes_hit _ SEED_IPS _ net _ _ He); simpl.
    by rewrite (getAllPNodes_hit _ SEED_IPS' _ net' _ _ He).
  - rewrite (getAllPNodes_miss _ SEED_IPS _ net _ He); simpl.
    rewrite (getAllPNodes_hit _ SEED_IPS' _ net' _
               (mkEntry (dedup (discovered normalizePNode SEED_IPS net)) 30000));
      [done|].
    simpl. apply lookup_insert_eq.
Qed.

(** X10. Stats that [getNodeStatsByPubkey] has returned are returned
    again by the next call for the same pubkey, which changes nothing
    and asks nothing of anyone: the node may have gone offline or
    unreachable in between. *)
Theorem stats_second_call_from_cache
    (normalizePNode : Pod -> Exn + PNode) (SEED_IPS SEED_IPS' : list string)
    (enrichNodesWithCachedStats :
       gmap string (Entry NodeStats) -> list PNode -> list PNode)
    (net net' : Net) (key : string) (w : World) (s : NodeStats) :
  (getNodeStatsByPubkey normalizePNode SEED_IPS enrichNodesWithCachedStats
     net key w).1 = inr (Some s) ->
  getNodeStatsByPubkey normalizePNode SEED_IPS' enrichNodesWithCachedStats net' key
    (getNodeStatsByPubkey normalizePNode SEED_IPS enrichNodesWithCachedStats
       net key w).2
  = (inr (Some s),
     (getNodeStatsByPubkey normalizePNode SEED_IPS enrichNodesWithCachedStats
        net key w).2).
Proof.
  intros Hfirst.
  assert (exists e,
            statsCache (getNodeStatsByPubkey normalizePNode SEED_IPS
                          enrichNodesWithCachedStats net key w).2
            !! STATS_CACHE_KEY key = Some e /\ value e = s)
    as (e & He & <-).
  { destruct (statsCache w !! STATS_CACHE_KEY key) as [e|] eqn:Hc.
    - rewrite (getNodeStats_cached _ SEED_IPS _ net _ _ _ Hc) in *. simpl in *.
      exists e. split; [done|]. congruence.
    - destruct (getAllPNodes_total normalizePNode SEED_IPS
                  enrichNodesWithCachedStats net w)
        as (nodes & w1 & evs & Hall & _).
      rewrite (getNodeStats_uncached _ _ _ _ _ _ _ _ Hc Hall) in *.
      destruct (findByPubkey key nodes) as [node|]; [|done].
      destruct (bool_decide (status node = online)); [|done].
      destruct (js_or (address node) (ip node)) as [a|]; [|done].
      destruct (truthy a); [|done].
      unfold fetched in *.
      destruct (node_getStats net (split_head a)) as [err|[s'|]]; simpl in *;
        [done| |done].
      exists (mkEntry s' 120000). split; [apply lookup_insert_eq|]. simpl. congruence. }
  by apply getNodeStats_cached.
Qed.


(** ** More read paths on the scenarios *)

(** Nothing answers, then scenario A's network: the empty list stays. *)
Lemma getAllPNodes_caches_total_failure_witness :
  nodeCache emptyWorld !! CACHE_KEY = None /\
  usable (normalizePNode_spec NOW) (primaryAnswer deadNet) = [] /\
  Forall (fun s => usable (normalizePNode_spec NOW) (seed_getPods deadNet s) = [])
         (drop 1 SEED_IPS_README) /\
  exists w',
    getAllPNodes (normalizePNode_spec NOW) SEED_IPS_README
                 enrichNodesWithCachedStats_spec deadNet emptyWorld
    = (inr (enrichNodesWithCachedStats_spec (statsCache emptyWorld) []), w') /\
    nodeCache w' !! CACHE_KEY = Some (mkEntry [] 30000) /\
    getAllPNodes (normalizePNode_spec NOW) SEED_IPS_README
                 enrichNodesWithCachedStats_spec netA w'
    = (inr (enrichNodesWithCachedStats_spec (statsCache emptyWorld) []), w').
Proof.
  assert (Forall (fun s => usable (normalizePNode_spec NOW) (seed_getPods deadNet s) = [])
                 (drop 1 SEED_IPS_README)) as Hdead
    by (apply Forall_forall; reflexivity).
  split_and!; [reflexivity|reflexivity|exact Hdead|].
  exact (getAllPNodes_caches_total_failure (normalizePNode_spec NOW) SEED_IPS_README
           enrichNodesWithCachedStats_spec deadNet emptyWorld netA
           eq_refl eq_refl Hdead).
Defined.

(** Scenario A: X is found, with the address it was first seen at. *)
Lemma getPNodeByPubkey_finds_discovered_witness :
  (forall stats l, pubkey <$> enrichNodesWithCachedStats_spec stats l = pubkey <$> l) /\
  nodeCache emptyWorld !! CACHE_KEY = None /\
  "X" ∈ pubkey <$> discovered (normalizePNode_spec NOW) SEED_IPS_README netA /\
  exists n,
    (getPNodeByPubkey (normalizePNode_spec NOW) SEED_IPS_README
                      enrichNodesWithCachedStats_spec netA "X" emptyWorld).1
    = inr (Some n) /\ pubkey n = "X".
Proof.
  assert ("X" ∈ pubkey <$> discovered (normalizePNode_spec NOW) SEED_IPS_README netA)
    as Hin by (vm_compute; left).
  split_and!; [apply enrich_spec_pubkeys|reflexivity|exact Hin|].
  exact (proj1 (getPNodeByPubkey_finds_discovered (normalizePNode_spec NOW)
                  SEED_IPS_README enrichNodesWithCachedStats_spec netA "X" emptyWorld
                  enrich_spec_pubkeys eq_refl) Hin).
Defined.

Lemma stats_unknown_pubkey_no_fetch_witness :
  statsCache worldC !! STATS_CACHE_KEY "Z" = None /\
  getAllPNodes (normalizePNode_spec NOW) SEED_IPS_README
               enrichNodesWithCachedStats_spec deadNet worldC
  = (inr [nodeX_offline], worldC) /\
  (forall n, n ∈ [nodeX_offline] -> pubkey n <> "Z") /\
  getNodeStatsByPubkey (normalizePNode_spec NOW) SEED_IPS_README
                       enrichNodesWithCachedStats_spec deadNet "Z" worldC
  = (inr None, worldC).
Proof.
  assert (forall n, n ∈ [nodeX_offline] -> pubkey n <> "Z") as Habsent
    by (by intros n ->%list_elem_of_singleton).
  split_and!; [reflexivity|reflexivity|exact Habsent|].
  exact (proj1 (stats_unknown_pubkey_no_fetch (normalizePNode_spec NOW)
                  SEED_IPS_README enrichNodesWithCachedStats_spec deadNet "Z" worldC
                  [nodeX_offline] worldC eq_refl eq_refl Habsent)).
Defined.

(** Scenario D, then nothing answers any more: the stats of Y are still
    returned. *)
Lemma stats_second_call_from_cache_witness :
  (getNodeStatsByPubkey (normalizePNode_spec NOW) SEED_IPS_README
     enrichNodesWithCachedStats_spec netD "Y" worldD).1 = inr (Some statsY) /\
  getNodeStatsByPubkey (normalizePNode_spec NOW) [] enrichNodesWithCachedStats_spec
    deadNet "Y"
    (getNodeStatsByPubkey (normalizePNode_spec NOW) SEED_IPS_README
       enrichNodesWithCachedStats_spec netD "Y" worldD).2
  = (inr (Some statsY),
     (getNodeStatsByPubkey (normalizePNode_spec NOW) SEED_IPS_README
        enrichNodesWithCachedStats_spec netD "Y" worldD).2).
Proof.
  split; [reflexivity|].
  exact (stats_second_call_from_cache (normalizePNode_spec NOW) SEED_IPS_README []
           enrichNodesWithCachedStats_spec netD deadNet "Y" worldD statsY eq_refl).
Defined.

(** Y with an [ip] and no [address] is asked at its [ip]. *)
Lemma stats_host_is_address_else_ip_witness :
  statsCache worldD_ip_only !! STATS_CACHE_KEY "Y" = None /\
  getAllPNodes (normalizePNode_spec NOW) SEED_IPS_README
               enrichNodesWithCachedStats_spec netD worldD_ip_only
  = (inr [nodeY_ip_only], worldD_ip_only) /\
  findByPubkey "Y" [nodeY_ip_only] = Some nodeY_ip_only /\
  status nodeY_ip_only = online /\
  getNodeStatsByPubkey (normalizePNode_spec NOW) SEED_IPS_README
                       enrichNodesWithCachedStats_spec netD "Y" worldD_ip_only
  = fetched netD "Y" "10.0.0.2" worldD_ip_only.
Proof.
  split_and!; [reflexivity..|].
  exact (stats_host_is_address_else_ip (normalizePNode_spec NOW) SEED_IPS_README
           enrichNodesWithCachedStats_spec netD "Y" worldD_ip_only
           [nodeY_ip_only] worldD_ip_only nodeY_ip_only
           eq_refl eq_refl eq_refl eq_refl).
Defined.


(** ** The raw listing for analytics *)

Lemma getRawPods_hit net s e :
  analyticsCache s !! CACHE_KEY_ANALYTICS = Some e ->
  getRawPodsForAnalytics net s = (inr (value e), s).
Proof.
  intros He. unfold getRawPodsForAnalytics, st_bind, analyticsCache_get.
  by rewrite He.
Qed.

Lemma getRawPods_miss net s :
  analyticsCache s !! CACHE_KEY_ANALYTICS = None ->
  getRawPodsForAnalytics net s
  = match primary_getPodsWithStats net with
    | inr r =>
        (inr (default [] (pods r)),
         mkAnalyticsWorld
           (<[CACHE_KEY_ANALYTICS := mkEntry (default [] (pods r)) 60000]>
              (analyticsCache s))
           (analyticsLog s ++ [PrimaryGetPodsWithStats]))
    | inl _ =>
        match primary_getPods net with
        | inr r =>
            (inr (default [] (pods r)),
             mkAnalyticsWorld
               (<[CACHE_KEY_ANALYTICS := mkEntry (default [] (pods r)) 60000]>
                  (analyticsCache s))
               (analyticsLog s ++ [PrimaryGetPodsWithStats; PrimaryGetPods]))
        | inl e =>
            (inl e,
             mkAnalyticsWorld (analyticsCache s)
               (analyticsLog s ++ [PrimaryGetPodsWithStats; PrimaryGetPods]))
        end
    end.
Proof.
  intros He.
  unfold getRawPodsForAnalytics, st_bind at 1, analyticsCache_get.
  rewrite He; simpl.
  unfold st_try, st_bind, analytics_rpc, st_bind, st_await, analyticsCache_set,
    st_ret; simpl.
  destruct (primary_getPodsWithStats net) as [e1|r1]; simpl; [|done].
  rewrite <- app_assoc; simpl.
  by destruct (primary_getPods net) as [e2|r2].
Qed.

(** X12. [getRawPodsForAnalytics], unlike discovery, can throw: it does
    so exactly when its cache has no entry and both listings of the
    primary endpoint throw, with the exception of the plain listing;
    the cache is then left as it was. No fallback seed is ever asked. *)
Theorem getRawPods_throws_iff (net : Net) (s : AnalyticsWorld) (e : Exn) :
  ((getRawPodsForAnalytics net s).1 = inl e <->
   analyticsCache s !! CACHE_KEY_ANALYTICS = None /\
   (exists e1, primary_getPodsWithStats net = inl e1) /\
   primary_getPods net = inl e) /\
  ((getRawPodsForAnalytics net s).1 = inl e ->
   analyticsCache (getRawPodsForAnalytics net s).2 = analyticsCache s) /\
  (exists evs,
     analyticsLog (getRawPodsForAnalytics net s).2 = analyticsLog s ++ evs /\
     evs `sublist_of` [PrimaryGetPodsWithStats; PrimaryGetPods]).
Proof.
  destruct (analyticsCache s !! CACHE_KEY_ANALYTICS) as [c|] eqn:Hc.
  - rewrite (getRawPods_hit _ _ _ Hc); simpl. split_and!.
    + split; [done|]. by intros [? _].
    + done.
    + exists []. rewrite app_nil_r. split; [done|]. apply sublist_nil_l.
  - rewrite (getRawPods_miss _ _ Hc).
    destruct (primary_getPodsWithStats net) as [e1|r1]; simpl.
    + destruct (primary_getPods net) as [e2|r2]; simpl; split_and!.
      * split; [intros [= ->]; eauto|]. by intros (_ & _ & [= ->]).
      * done.
      * by eexists.
      * split; [done|]. by intros (_ & _ & ?).
      * done.
      * by eexists.
    + split_and!.
      * split; [done|]. by intros (_ & [? ?] & _).
      * done.
      * eexists. split; [done|]. apply sublist_skip, sublist_nil_l.
Qed.

(** X13. A listing [getRawPodsForAnalytics] has returned is in its
    cache afterwards: the next call returns the same pods and changes
    nothing, whatever the primary endpoint would answer by then. An
    answer without [pods] counts as the empty listing and is cached as
    such. *)
Theorem getRawPods_second_call_is_hit (net net' : Net) (s : AnalyticsWorld)
    (ps : list Pod) :
  (getRawPodsForAnalytics net s).1 = inr ps ->
  getRawPodsForAnalytics net' (getRawPodsForAnalytics net s).2
  = (inr ps, (getRawPodsForAnalytics net s).2) /\
  (analyticsCache s !! CACHE_KEY_ANALYTICS = None ->
   primary_getPodsWithStats net = inr (mkResponse None) ->
   ps = [] /\
   analyticsCache (getRawPodsForAnalytics net s).2 !! CACHE_KEY_ANALYTICS
   = Some (mkEntry [] 60000)).
Proof.
  intros Hfirst. split.
  - destruct (analyticsCache s !! CACHE_KEY_ANALYTICS) as [c|] eqn:Hc.
    + rewrite (getRawPods_hit _ _ _ Hc) in *. simpl in *.
      rewrite (getRawPods_hit _ _ _ Hc). congruence.
    + rewrite (getRawPods_miss _ _ Hc) in *.
      destruct (primary_getPodsWithStats net) as [e1|r1]; simpl in *.
      * destruct (primary_getPods net) as [e2|r2]; simpl in *; [done|].
        rewrite (getRawPods_hit _ _ (mkEntry (default [] (pods r2)) 60000));
          [simpl; congruence|apply lookup_insert_eq].
      * rewrite (getRawPods_hit _ _ (mkEntry (default [] (pods r1)) 60000));
          [simpl; congruence|apply lookup_insert_eq].
  - intros Hc Hnone. rewrite (getRawPods_miss _ _ Hc), Hnone in *. simpl in *.
    split; [congruence|apply lookup_insert_eq].
Qed.

Lemma getRawPods_throws_iff_witness :
  (getRawPodsForAnalytics deadNet emptyAnalyticsWorld).1 = inl timed_out /\
  analyticsCache (getRawPodsForAnalytics deadNet emptyAnalyticsWorld).2
  = analyticsCache emptyAnalyticsWorld.
Proof.
  split; [reflexivity|].
  exact (proj1 (proj2 (getRawPods_throws_iff deadNet emptyAnalyticsWorld timed_out))
               eq_refl).
Defined.

(** The plain listing answers after the listing with stats threw. *)
Lemma getRawPods_second_call_is_hit_witness :
  (getRawPodsForAnalytics netPlain emptyAnalyticsWorld).1 = inr batchA /\
  getRawPodsForAnalytics deadNet
    (getRawPodsForAnalytics netPlain emptyAnalyticsWorld).2
  = (inr batchA, (getRawPodsForAnalytics netPlain emptyAnalyticsWorld).2).
Proof.
  split; [reflexivity|].
  exact (proj1 (getRawPods_second_call_is_hit netPlain deadNet emptyAnalyticsWorld
                  batchA eq_refl)).
Defined.

(** ** More on the online status *)

(** X14. With the timestamp fixed, time only takes a node offline: a
    node online at some instant was online at every earlier instant,
    and a node offline at some instant is offline at every later one;
    a node last seen in the future is online. *)
Theorem isOnline_antitone (ts now now' : Z) :
  Z.abs (ts * 1000) <= MAX_TIME_VALUE ->
  now <= now' ->
  (isOnline now' ts = true -> isOnline now ts = true) /\
  (isOnline now ts = false -> isOnline now' ts = false) /\
  (now <= ts * 1000 -> isOnline now ts = true).
Proof.
  intros Hrange Hle. rewrite !isOnline_spec by done. split_and!.
  - intros H%bool_decide_eq_true. apply bool_decide_eq_true_2. lia.
  - intros H%bool_decide_eq_false. apply bool_decide_eq_false_2. lia.
  - intros Hfuture. apply bool_decide_eq_true_2. lia.
Qed.

(** A pod last seen 299 s before [NOW]: online at [NOW], hence online
    five seconds earlier; offline one second after [NOW], hence offline
    five seconds after; and online when [now] is the instant it was
    seen. *)
Lemma isOnline_antitone_witness :
  Z.abs (1767225301 * 1000) <= MAX_TIME_VALUE /\
  (NOW - 5000 <= NOW /\ isOnline NOW 1767225301 = true /\
   isOnline (NOW - 5000) 1767225301 = true) /\
  (NOW + 1000 <= NOW + 5000 /\ isOnline (NOW + 1000) 1767225301 = false /\
   isOnline (NOW + 5000) 1767225301 = false) /\
  (1767225301 * 1000 <= 1767225301 * 1000 /\
   isOnline (1767225301 * 1000) 1767225301 = true).
Proof.
  assert (Z.abs (1767225301 * 1000) <= MAX_TIME_VALUE) as Hrange by (by vm_compute).
  assert (NOW - 5000 <= NOW) as Hearlier by (by vm_compute).
  assert (NOW + 1000 <= NOW + 5000) as Hlater by (by vm_compute).
  assert (isOnline NOW 1767225301 = true) as Hon by (by vm_compute).
  assert (isOnline (NOW + 1000) 1767225301 = false) as Hoff by (by vm_compute).
  split_and!; [exact Hrange|exact Hearlier|exact Hon| |exact Hlater|exact Hoff| |lia|].
  - exact (proj1 (isOnline_antitone 1767225301 (NOW - 5000) NOW Hrange Hearlier) Hon).
  - exact (proj1 (proj2 (isOnline_antitone 1767225301 (NOW + 1000) (NOW + 5000)
                           Hrange Hlater)) Hoff).
  - exact (proj2 (proj2 (isOnline_antitone 1767225301 (1767225301 * 1000)
                           (1767225301 * 1000) Hrange (Z.le_refl _)))
                 (Z.le_refl _)).
Defined.


(** ** extractIP *)

Lemma is_digit_plain c :
  is_digit c = true ->
  Ascii.eqb c "."%char = false /\ Ascii.eqb c ":"%char = false /\ is_space c = false.
Proof.
  destruct c as [[] [] [] [] [] [] [] []]; vm_compute; intros; by try discriminate.
Qed.

Lemma dot_plain :
  is_digit "."%char = false /\ Ascii.eqb "."%char ":"%char = false /\
  is_space "."%char = false.
Proof. by vm_compute. Qed.

Lemma all_chars_app p s1 s2 :
  all_chars p (s1 +:+ s2) = all_chars p s1 && all_chars p s2.
Proof.
  induction s1 as [|c s1 IH]; simpl; [done|]. rewrite IH. by rewrite andb_assoc.
Qed.

Lemma all_chars_impl (p q : ascii -> bool) s :
  (forall c, p c = true -> q c = true) -> all_chars p s = true -> all_chars q s = true.
Proof.
  intros Hpq. induction s as [|c s IH]; simpl; [done|].
  intros [Hc Hs]%andb_true_iff. rewrite (Hpq c Hc). by apply IH.
Qed.

Lemma all_digits_all_chars s : all_digits s = all_chars is_digit s.
Proof. induction s as [|c s IH]; simpl; [done|]. by rewrite IH. Qed.

Lemma length_append s1 s2 :
  String.length (s1 +:+ s2) = (String.length s1 + String.length s2)%nat.
Proof. induction s1 as [|c s1 IH]; simpl; [done|]. by rewrite IH. Qed.

Lemma append_nil_r s : s +:+ EmptyString = s.
Proof.
  induction s as [|c s IH]; [done|].
  change (String c (s +:+ EmptyString) = String c s). by f_equal.
Qed.

(** The run of digits a string starts with is all of its leading
    digits. *)
Lemma span_digits_spec s ds after :
  span_digits s = (ds, after) ->
  s = ds +:+ after /\ all_digits ds = true /\
  match after with String c _ => is_digit c = false | EmptyString => True end.
Proof.
  revert ds after. induction s as [|c s IH]; intros ds after; simpl.
  - by intros [= <- <-].
  - destruct (is_digit c) eqn:Hc.
    + destruct (span_digits s) as [ds' after'] eqn:Hs. intros [= <- <-].
      destruct (IH _ _ eq_refl) as (-> & Hds & Hafter). simpl. by rewrite Hc.
    + by intros [= <- <-].
Qed.

Lemma span_digits_app ds after :
  all_digits ds = true ->
  match after with String c _ => is_digit c = false | EmptyString => True end ->
  span_digits (ds +:+ after) = (ds, after).
Proof.
  intros Hds Hafter. induction ds as [|c ds IH]; simpl in *.
  - destruct after as [|c after]; [done|]. simpl. by rewrite Hafter.
  - apply andb_true_iff in Hds as [Hc Hds]. by rewrite Hc, IH.
Qed.

Lemma ipv4_groups_unfold groups s :
  ipv4_groups groups s
  = let '(ds, after) := span_digits s in
    if ((1 <=? String.length ds) && (String.length ds <=? 3))%nat then
      match groups with
      | O => match after with EmptyString => true | _ => false end
      | S groups' =>
          match after with
          | String c after' => Ascii.eqb c "."%char && ipv4_groups groups' after'
          | EmptyString => false
          end
      end
    else false.
Proof. by destruct groups. Qed.

Lemma octet_length_test ds :
  ((1 <=? String.length ds) && (String.length ds <=? 3))%nat = true <->
  (1 <= String.length ds <= 3)%nat.
Proof.
  rewrite andb_true_iff, !Nat.leb_le. done.
Qed.

(** The matcher accepts what the regular expression stands for. *)
Lemma ipv4_groups_dotted groups : forall s,
  ipv4_groups groups s = true <-> dotted groups s.
Proof.
  induction groups as [|groups IH]; intros s; rewrite ipv4_groups_unfold;
    destruct (span_digits s) as [ds after] eqn:Hspan;
    destruct (span_digits_spec _ _ _ Hspan) as (Hs & Hds & Hafter); cbn [dotted].
  - split.
    + destruct (_ && _) eqn:Hlen; [|done]. apply octet_length_test in Hlen.
      destruct after; [|done]. intros _. by rewrite Hs, append_nil_r.
    + intros [Hlen Hall].
      assert (span_digits s = (s, EmptyString)) as Hspan'.
      { rewrite <- (append_nil_r s) at 1. by apply span_digits_app. }
      clear Hs. rewrite Hspan' in Hspan. injection Hspan as Hd Ha. subst ds after.
      by rewrite (proj2 (octet_length_test _) Hlen).
  - split.
    + destruct (_ && _) eqn:Hlen; [|done]. apply octet_length_test in Hlen.
      destruct after as [|c after']; [done|].
      intros [Hc Hrest]%andb_true_iff. apply Ascii.eqb_eq in Hc as ->.
      exists ds, after'. split; [done|]. split; [done|]. by apply IH.
    + intros (a & rest & -> & [Hlen Hall] & Hrest).
      assert (span_digits (a +:+ "." +:+ rest) = (a, "." +:+ rest)) as Hspan'.
      { apply span_digits_app; [done|]. apply dot_plain. }
      clear Hs. rewrite Hspan' in Hspan. injection Hspan as Hd Ha. subst ds after.
      rewrite (proj2 (octet_length_test _) Hlen).
      change (Ascii.eqb "." "." && ipv4_groups groups rest = true).
      rewrite Ascii.eqb_refl. by apply IH.
Qed.

Lemma ip_char_plain c :
  is_digit c || Ascii.eqb c "."%char = true ->
  Ascii.eqb c ":"%char = false /\ is_space c = false.
Proof.
  intros [Hc|Hc]%orb_true_iff.
  - by apply is_digit_plain in Hc as (_ & ? & ?).
  - apply Ascii.eqb_eq in Hc as ->. by vm_compute.
Qed.

Lemma octet_chars s :
  octet s -> all_chars (fun c => is_digit c || Ascii.eqb c "."%char) s = true /\
             truthy s = true.
Proof.
  intros [Hlen Hall]. split.
  - rewrite all_digits_all_chars in Hall. eapply all_chars_impl; [|done].
    intros c ->. done.
  - destruct s; simpl in *; [lia|done].
Qed.

Lemma dotted_chars groups : forall s,
  dotted groups s ->
  all_chars (fun c => is_digit c || Ascii.eqb c "."%char) s = true /\
  truthy s = true.
Proof.
  induction groups as [|groups IH]; intros s; cbn [dotted].
  - apply octet_chars.
  - intros (a & rest & -> & Ha & Hrest).
    destruct (octet_chars _ Ha) as [Hca Hta], (IH _ Hrest) as [Hcr _]. split.
    + rewrite !all_chars_app, Hca, Hcr. done.
    + by destruct a.
Qed.

Lemma split_head_plain s tail :
  all_chars (fun c => is_digit c || Ascii.eqb c "."%char) s = true ->
  split_head s = s /\ split_head (s +:+ ":" +:+ tail) = s.
Proof.
  induction s as [|c s IH]; [done|].
  change (String c s +:+ ":" +:+ tail) with (String c (s +:+ ":" +:+ tail)).
  cbn [all_chars split_head]. intros [Hc Hs]%andb_true_iff.
  destruct (ip_char_plain _ Hc) as [-> _], (IH Hs) as [-> ->]. done.
Qed.

Lemma trim_plain s :
  all_chars (fun c => is_digit c || Ascii.eqb c "."%char) s = true -> trim s = s.
Proof.
  intros Hall. unfold trim.
  assert (trimStart s = s) as ->.
  { destruct s as [|c s]; [done|]. simpl in *.
    apply andb_true_iff in Hall as [Hc _].
    by destruct (ip_char_plain _ Hc) as [_ ->]. }
  induction s as [|c s IH]; [done|]. cbn [all_chars trimEnd] in *.
  apply andb_true_iff in Hall as [Hc Hs]. rewrite (IH Hs).
  destruct (ip_char_plain _ Hc) as [_ ->]. by destruct s.
Qed.

Lemma extractIP_Some (address ip : string) :
  extractIP (Some address) = Some ip <->
  truthy address = true /\ ip = trim (split_head address) /\ dotted 3 ip.
Proof.
  unfold extractIP, ipv4Regex_test.
  cbn [truthy_opt]. change (default EmptyString (Some address)) with address.
  destruct (truthy address); cbn [negb]; [|by split; [|intros [? _]]].
  destruct (ipv4_groups 3 (trim (split_head address))) eqn:Hre; cbn [negb].
  - apply ipv4_groups_dotted in Hre. split.
    + intros [= <-]. done.
    + by intros (_ & -> & _).
  - split; [done|]. intros (_ & -> & Hd%ipv4_groups_dotted). congruence.
Qed.

(** X15. [extractIP] answers with a string exactly when the address is
    not empty and its part before the first colon, trimmed, is four
    runs of one to three digits with dots between them; the answer is
    that part. Nothing checks that a run is at most 255. *)
Theorem extractIP_spec (address ip : string) :
  extractIP None = None /\
  (extractIP (Some address) = Some ip <->
   truthy address = true /\ ip = trim (split_head address) /\ dotted 3 ip).
Proof.
  split; [reflexivity|]. split.
  - intros Hip. by apply extractIP_Some.
  - intros Hshape. by apply extractIP_Some.
Qed.

(** X16. A string of four runs of one to three digits with dots between
    them is its own [extractIP], and stays the answer when a colon and
    anything at all, a port for one, follows it: what [extractIP]
    returns has no port, and [extractIP] of it is itself. *)
Theorem extractIP_strips_port (ip port : string) :
  dotted 3 ip ->
  extractIP (Some ip) = Some ip /\
  extractIP (Some (ip +:+ ":" +:+ port)) = Some ip.
Proof.
  intros Hd. destruct (dotted_chars _ _ Hd) as [Hchars Ht].
  destruct (split_head_plain ip port Hchars) as [Hhead Hheadport].
  pose proof (trim_plain _ Hchars) as Htrim.
  split; apply extractIP_Some; (split_and!; [|by rewrite ?Hhead, ?Hheadport, Htrim|done]).
  - done.
  - by destruct ip.
Qed.

Lemma extractIP_spec_witness :
  extractIP (Some " 10.0.0.1 :9001") = Some "10.0.0.1" /\
  truthy " 10.0.0.1 :9001" = true /\
  "10.0.0.1" = trim (split_head " 10.0.0.1 :9001") /\
  dotted 3 "10.0.0.1".
Proof.
  split; [reflexivity|].
  exact (proj1 (proj2 (extractIP_spec " 10.0.0.1 :9001" "10.0.0.1")) eq_refl).
Defined.

Lemma dotted_999 : dotted 3 "999.999.999.999".
Proof. apply ipv4_groups_dotted. reflexivity. Qed.

(** Octets out of range pass. *)
Lemma extractIP_strips_port_witness :
  dotted 3 "999.999.999.999" /\
  extractIP (Some "999.999.999.999") = Some "999.999.999.999" /\
  extractIP (Some ("999.999.999.999" +:+ ":" +:+ "9001")) = Some "999.999.999.999".
Proof.
  split; [exact dotted_999|].
  exact (extractIP_strips_port "999.999.999.999" "9001" dotted_999).
Defined.

Example extractIP_rejects :
  extractIP (Some "2001:db8::1") = None /\
  extractIP (Some "localhost:9001") = None /\
  extractIP (Some "1.2.3") = None /\
  extractIP (Some "1.2.3.4.5") = None /\
  extractIP (Some "1234.1.1.1") = None /\
  extractIP (Some "1.2.3.4 5") = None /\
  extractIP (Some EmptyString) = None.
Proof. by vm_compute. Qed.


(** ** Geo lookups *)

Section GeoFacts.
Variable number : Type.
Variable number_truthy : number -> bool.
Variable parseFloat : string -> number.

Local Abbreviation GeoWorld := (GeoWorld number).
Local Abbreviation GeoLocation := (GeoLocation number).
Local Abbreviation GeoData := (GeoData number).
Local Abbreviation HttpResponse := (HttpResponse number).
Local Abbreviation resolveIPToGeo := (resolveIPToGeo number number_truthy parseFloat).
Local Abbreviation resolveNodeGeo := (resolveNodeGeo number number_truthy parseFloat).
Local Abbreviation acceptedGeo := (acceptedGeo number number_truthy parseFloat).
Local Abbreviation lookedUp := (lookedUp number number_truthy parseFloat).
Local Abbreviation validGeoData := (validGeoData number number_truthy).

Lemma resolveIPToGeo_hit fetch ip t (s : GeoWorld) e :
  geoCache s !! (GEO_CACHE_KEY_PREFIX +:+ ip) = Some e ->
  resolveIPToGeo fetch ip t s = (inr (Some (value e)), s).
Proof.
  intros He. unfold resolveIPToGeo, st_bind at 1, geoCache_get.
  by rewrite He.
Qed.

Lemma resolveIPToGeo_miss fetch ip t (s : GeoWorld) :
  geoCache s !! (GEO_CACHE_KEY_PREFIX +:+ ip) = None ->
  resolveIPToGeo fetch ip t s = lookedUp fetch ip s.
Proof.
  intros He. unfold resolveIPToGeo, st_bind at 1, geoCache_get.
  rewrite He; simpl.
  unfold lookedUp, acceptedGeo, st_try, st_bind, geo_fetch,
    st_bind, st_await, st_ret, st_throw, geoCache_set; simpl.
  destruct (fetch (geoUrl ip)) as [err|response]; simpl.
  { by destruct (bool_decide _ || _). }
  destruct (ok response); simpl; [|done].
  destruct (json response) as [err|data]; simpl.
  { by destruct (bool_decide _ || _). }
  destruct (bool_decide (gd_status data = Some "fail")); simpl; [done|].
  destruct (negb _ || negb _ || negb _); simpl; [done|].
  by destruct (gd_lat data), (gd_lon data).
Qed.

Lemma acceptedGeo_valid (data : GeoData) :
  (exists geo, acceptedGeo data = Some geo) <-> validGeoData data.
Proof.
  unfold acceptedGeo, validGeoData. split.
  - intros [geo Hgeo].
    destruct (bool_decide_reflect (gd_status data = Some "fail")); [done|].
    destruct (numOrString_truthy _ _ (gd_lat data)); [|done].
    destruct (numOrString_truthy _ _ (gd_lon data)); [|done].
    by destruct (truthy_opt (gd_country data)).
  - intros (Hstatus & Hlat & Hlon & Hcountry).
    rewrite bool_decide_eq_false_2 by done. rewrite Hlat, Hlon, Hcountry. simpl.
    destruct (gd_lat data); [|done]. destruct (gd_lon data); [|done]. eauto.
Qed.

Lemma lookedUp_outcome fetch ip (s : GeoWorld) :
  exists r,
    (lookedUp fetch ip s).1 = inr r /\
    fetched_urls (lookedUp fetch ip s).2 = fetched_urls s ++ [geoUrl ip] /\
    match r with
    | Some geo =>
        geoCache (lookedUp fetch ip s).2
        = <[GEO_CACHE_KEY_PREFIX +:+ ip := mkEntry geo 86400000]> (geoCache s) /\
        exists response data,
          fetch (geoUrl ip) = inr response /\ ok response = true /\
          json response = inr data /\ acceptedGeo data = Some geo
    | None => geoCache (lookedUp fetch ip s).2 = geoCache s
    end.
Proof.
  unfold lookedUp.
  destruct (fetch (geoUrl ip)) as [err|response]; [by exists None|].
  destruct (ok response) eqn:Hok; [|by exists None].
  destruct (json response) as [err|data] eqn:Hjson; [by exists None|].
  destruct (acceptedGeo data) as [geo|] eqn:Hgeo; [|by exists None].
  exists (Some geo). split_and!; [done..|]. by exists response, data.
Qed.

(** X17. A geo lookup for a node never throws, whatever [fetch] does.
    For an address [extractIP] rejects it returns null, whatever the
    geo cache holds, and leaves the state as it was: nothing is fetched
    and nothing written. Otherwise at most one URL is fetched, the one
    of the extracted IPv4 string; and a lookup that returns null leaves
    the geo cache as it was. *)
Theorem geo_lookup_never_throws (fetch : string -> FetchError + HttpResponse)
    (address : option string) (t : Z) (s : GeoWorld) :
  exists r s',
    resolveNodeGeo fetch address t s = (inr r, s') /\
    (extractIP address = None -> r = None /\ s' = s) /\
    (r = None -> geoCache s' = geoCache s) /\
    (fetched_urls s' = fetched_urls s \/
     exists ip, extractIP address = Some ip /\
                fetched_urls s' = fetched_urls s ++ [geoUrl ip]).
Proof.
  unfold resolveNodeGeo.
  destruct (extractIP address) as [ip|] eqn:Hip.
  - assert (truthy ip = true) as ->.
    { destruct address as [a|]; [|done].
      apply extractIP_Some in Hip as (_ & _ & Hd).
      by apply dotted_chars in Hd as [_ ?]. }
    simpl.
    destruct (geoCache s !! (GEO_CACHE_KEY_PREFIX +:+ ip)) as [e|] eqn:He.
    + rewrite (resolveIPToGeo_hit _ _ _ _ _ He). eexists _, _.
      split_and!; [done|done|done|by left].
    + rewrite (resolveIPToGeo_miss _ _ _ _ He).
      destruct (lookedUp_outcome fetch ip s) as (r & Hr & Hurls & Hcache).
      destruct (lookedUp fetch ip s) as [r' s'] eqn:Hl. simpl in *. subst r'.
      exists r, s'. split_and!; [done|done| |right; eauto].
      intros ->. done.
  - exists None, s. split_and!; [done|done|done|by left].
Qed.

(** X18. With no entry in the geo cache, [resolveIPToGeo] returns a
    location exactly when the fetch returns, the response is [ok], its
    body parses, the body's status is not "fail" and its [lat], [lon]
    and [country] are all truthy (a coordinate that is zero is not).
    That location, and nothing else ever, is written to the cache,
    under [geo:<ip>] with a TTL of 24 hours. *)
Theorem geo_lookup_accepts_valid_only (fetch : string -> FetchError + HttpResponse)
    (ip : string) (t : Z) (s : GeoWorld) :
  geoCache s !! (GEO_CACHE_KEY_PREFIX +:+ ip) = None ->
  ((exists geo, (resolveIPToGeo fetch ip t s).1 = inr (Some geo)) <->
   (exists response data,
      fetch (geoUrl ip) = inr response /\ ok response = true /\
      json response = inr data /\ validGeoData data)) /\
  match (resolveIPToGeo fetch ip t s).1 with
  | inr (Some geo) =>
      geoCache (resolveIPToGeo fetch ip t s).2
      = <["geo:" +:+ ip := mkEntry geo 86400000]> (geoCache s)
  | _ => geoCache (resolveIPToGeo fetch ip t s).2 = geoCache s
  end.
Proof.
  intros He. rewrite (resolveIPToGeo_miss _ _ _ _ He).
  destruct (lookedUp_outcome fetch ip s) as (r & Hr & _ & Hcache).
  rewrite Hr. split.
  - split.
    + intros [geo [= ->]]. destruct Hcache as (_ & response & data & ? & ? & ? & Hgeo).
      exists response, data. split_and!; [done..|]. apply acceptedGeo_valid. eauto.
    + intros (response & data & Hfetch & Hok & Hjson & [geo Hgeo]%acceptedGeo_valid).
      exists geo. rewrite <- Hr. unfold lookedUp.
      by rewrite Hfetch, Hok, Hjson, Hgeo.
  - destruct r as [geo|]; [by destruct Hcache|done].
Qed.

(** X19. A location [resolveIPToGeo] has returned for an IP is returned
    again by the next lookup of that IP, from the cache: nothing is
    fetched and nothing changes, whatever [fetch] would do by then. *)
Theorem geo_lookup_second_call_from_cache
    (fetch fetch' : string -> FetchError + HttpResponse)
    (ip : string) (t t' : Z) (s : GeoWorld) (geo : GeoLocation) :
  (resolveIPToGeo fetch ip t s).1 = inr (Some geo) ->
  resolveIPToGeo fetch' ip t' (resolveIPToGeo fetch ip t s).2
  = (inr (Some geo), (resolveIPToGeo fetch ip t s).2).
Proof.
  intros Hfirst.
  destruct (geoCache s !! (GEO_CACHE_KEY_PREFIX +:+ ip)) as [e|] eqn:He.
  - rewrite (resolveIPToGeo_hit _ _ _ _ _ He) in *. simpl in *.
    rewrite (resolveIPToGeo_hit _ _ _ _ _ He). congruence.
  - rewrite (resolveIPToGeo_miss _ _ _ _ He) in *.
    destruct (lookedUp_outcome fetch ip s) as (r & Hr & _ & Hcache).
    rewrite Hr in Hfirst. injection Hfirst as ->. destruct Hcache as [Hcache _].
    rewrite (resolveIPToGeo_hit _ _ _ _ (mkEntry geo 86400000)); [done|].
    rewrite Hcache. apply lookup_insert_eq.
Qed.
End GeoFacts.

Lemma geo_lookup_never_throws_witness :
  extractIP (Some "localhost:9001") = None /\
  resolveNodeGeo Z Z_truthy parseFloat_none fetchFrankfurt (Some "localhost:9001")
                 2000 warmGeoWorld
  = (inr None, warmGeoWorld).
Proof.
  split; [reflexivity|].
  destruct (geo_lookup_never_throws Z Z_truthy parseFloat_none fetchFrankfurt
              (Some "localhost:9001") 2000 warmGeoWorld)
    as (r & s' & Hres & Hnone & _).
  destruct (Hnone eq_refl) as [-> ->]. exact Hres.
Defined.

Lemma geo_lookup_accepts_valid_only_witness :
  geoCache emptyGeoWorld !! (GEO_CACHE_KEY_PREFIX +:+ "10.0.0.1") = None /\
  (resolveIPToGeo Z Z_truthy parseFloat_none fetchFrankfurt "10.0.0.1" 2000
                  emptyGeoWorld).1 = inr (Some frankfurtLocation) /\
  exists response data,
    fetchFrankfurt (geoUrl "10.0.0.1") = inr response /\ ok response = true /\
    json response = inr data /\ validGeoData Z Z_truthy data.
Proof.
  split; [reflexivity|]. split; [reflexivity|].
  apply (proj1 (geo_lookup_accepts_valid_only Z Z_truthy parseFloat_none
                  fetchFrankfurt "10.0.0.1" 2000 emptyGeoWorld eq_refl)).
  exists frankfurtLocation. reflexivity.
Defined.

Lemma geo_lookup_second_call_from_cache_witness :
  (resolveIPToGeo Z Z_truthy parseFloat_none fetchFrankfurt "10.0.0.1" 2000
                  emptyGeoWorld).1 = inr (Some frankfurtLocation) /\
  resolveIPToGeo Z Z_truthy parseFloat_none fetchAborted "10.0.0.1" 5000
    (resolveIPToGeo Z Z_truthy parseFloat_none fetchFrankfurt "10.0.0.1" 2000
                    emptyGeoWorld).2
  = (inr (Some frankfurtLocation),
     (resolveIPToGeo Z Z_truthy parseFloat_none fetchFrankfurt "10.0.0.1" 2000
                     emptyGeoWorld).2).
Proof.
  split; [reflexivity|].
  exact (geo_lookup_second_call_from_cache Z Z_truthy parseFloat_none
           fetchFrankfurt fetchAborted "10.0.0.1" 2000 5000 emptyGeoWorld
           frankfurtLocation eq_refl).
Defined.

(** An aborted fetch, and a body on the equator: null, nothing cached. *)
Example geo_lookup_rejections :
  resolveIPToGeo Z Z_truthy parseFloat_none fetchAborted "10.0.0.1" 2000 emptyGeoWorld
  = (inr None, mkGeoWorld ∅ [geoUrl "10.0.0.1"]) /\
  resolveIPToGeo Z Z_truthy parseFloat_none
    (fun _ => inr (mkHttpResponse true
                     (inr (mkGeoData (Some "success") None (Some (JNum 0))
                                     (Some (JNum 8682100)) (Some "Gabon") None None))))
    "10.0.0.1" 2000 emptyGeoWorld
  = (inr None, mkGeoWorld ∅ [geoUrl "10.0.0.1"]).
Proof. split; reflexivity. Qed.


(** ** getMapNodes *)

Section MapNodesFacts.
Variable number : Type.
Variable geoOf : option string -> FetchError + option (GeoLocation number).

Local Abbreviation mapNodeOf := (mapNodeOf number geoOf).
Local Abbreviation batchLoop := (batchLoop number geoOf).
Local Abbreviation getMapNodes := (getMapNodes number geoOf).

(** With fuel for the batches that are left, the loop pushes the map
    nodes of everything from position [i] on. *)
Lemma batchLoop_spec nodes fuel : forall i mapNodes,
  (length nodes <= i + BATCH_SIZE * fuel)%nat ->
  batchLoop fuel i nodes mapNodes = mapNodes ++ omap mapNodeOf (drop i nodes).
Proof.
  induction fuel as [|fuel IH]; intros i mapNodes Hfuel; simpl.
  - rewrite drop_ge by lia. by rewrite app_nil_r.
  - destruct (Nat.ltb_spec i (length nodes)) as [Hlt|Hge].
    + rewrite IH by (unfold BATCH_SIZE in *; lia). unfold slice.
      replace (i + BATCH_SIZE - i)%nat with BATCH_SIZE by lia.
      rewrite <- app_assoc, <- omap_app. do 2 f_equal.
      rewrite <- (take_drop BATCH_SIZE (drop i nodes)) at 2.
      by rewrite drop_drop.
    + rewrite drop_ge by lia. by rewrite app_nil_r.
Qed.

Lemma mapNodeOf_pubkey node m : mapNodeOf node = Some m -> mn_pubkey m = pubkey node.
Proof.
  unfold mapNodeOf. destruct (geoOf _) as [err|[geo|]]; [done| |done].
  by intros [= <-].
Qed.

(** X20. Batching is invisible in what [getMapNodes] returns: whether
    the nodes are more than 100 and go through the lookups twenty at a
    time or not, the result is, in the order of the nodes, the map node
    of every node whose lookup resolved; no node is lost at a batch
    boundary, none comes twice. *)
Theorem getMapNodes_batching_transparent (nodes : list PNode) :
  getMapNodes nodes = omap mapNodeOf nodes /\
  (length (getMapNodes nodes) <= length nodes)%nat /\
  mn_pubkey <$> getMapNodes nodes `sublist_of` pubkey <$> nodes.
Proof.
  assert (getMapNodes nodes = omap mapNodeOf nodes) as ->.
  { unfold getMapNodes. destruct (100 <? length nodes)%nat eqn:Hbig; [|done].
    rewrite batchLoop_spec by (unfold BATCH_SIZE; lia). done. }
  split; [done|]. split.
  - induction nodes as [|node rest IH]; csimpl; [done|].
    destruct (mapNodeOf node); csimpl; lia.
  - induction nodes as [|node rest IH]; csimpl; [done|].
    destruct (mapNodeOf node) as [m|] eqn:Hm; csimpl.
    + rewrite (mapNodeOf_pubkey _ _ Hm). by apply sublist_skip.
    + by apply sublist_cons.
Qed.

End MapNodesFacts.

(** ** More on the geographic summary *)

Lemma map_get_set m k v k' :
  map_get (map_set m k v) k' = if decide (k = k') then Some v else map_get m k'.
Proof.
  induction m as [|[k0 v0] m IH]; simpl.
  - by destruct (decide (k = k')).
  - destruct (decide (k0 = k)) as [->|Hne]; simpl.
    + by destruct (decide (k = k')).
    + rewrite IH. destruct (decide (k0 = k')) as [->|]; [|done].
      by rewrite decide_False by congruence.
Qed.

Lemma map_get_None m k : map_get m k = None <-> k ∉ m.*1.
Proof.
  induction m as [|[k0 v0] m IH]; csimpl.
  - split; [|done]. intros _. apply not_elem_of_nil.
  - destruct (decide (k0 = k)) as [->|Hne].
    + split; [done|]. intros Hk. destruct Hk. left.
    + rewrite IH. rewrite not_elem_of_cons. split; [by split|by intros [_ ?]].
Qed.

Lemma map_set_keys m k v :
  (map_set m k v).*1 = if decide (k ∈ m.*1) then m.*1 else m.*1 ++ [k].
Proof.
  induction m as [|[k0 v0] m IH]; csimpl.
  - destruct (decide (k ∈ [])) as [Hin|_]; [by apply elem_of_nil in Hin|done].
  - destruct (decide (k0 = k)) as [->|Hne]; csimpl.
    + destruct (decide (k ∈ k :: m.*1)) as [_|Hnotin]; [done|].
      destruct Hnotin. left.
    + rewrite IH. destruct (decide (k ∈ m.*1)) as [Hin|Hnotin].
      * destruct (decide (k ∈ k0 :: m.*1)) as [_|Hn]; [done|].
        destruct Hn. by right.
      * destruct (decide (k ∈ k0 :: m.*1)) as [[Heq|Hin]%elem_of_cons|_];
          [congruence|done|done].
Qed.

Lemma map_get_elem m k v : NoDup m.*1 -> (k, v) ∈ m -> map_get m k = Some v.
Proof.
  induction m as [|[k0 v0] m IH]; csimpl; [by intros _ ?%elem_of_nil|].
  intros [Hnotin Hnd]%NoDup_cons [[= -> ->]|Hin]%elem_of_cons.
  - by rewrite decide_True.
  - rewrite decide_False; [by apply IH|].
    intros ->. apply Hnotin. apply list_elem_of_fmap. by exists (k, v).
Qed.

Section CountFacts.
Variable key : MapNode -> string.

Local Abbreviation step :=
  (fun m node => map_set m (key node) (num_or (map_get m (key node)) 0 + 1)).

Lemma countBy_fold_get mapNodes : forall m k,
  default 0 (map_get (fold_left step mapNodes m) k)
  = default 0 (map_get m k)
    + Z.of_nat (length (filter (fun n => key n = k) mapNodes)).
Proof.
  induction mapNodes as [|node rest IH]; intros m k; simpl fold_left.
  - rewrite filter_nil. simpl. lia.
  - rewrite IH, map_get_set, num_or_0, filter_cons.
    destruct (decide (key node = k)) as [->|Hne]; simpl; lia.
Qed.

Lemma countBy_fold_keys mapNodes : forall m,
  NoDup m.*1 ->
  NoDup (fold_left step mapNodes m).*1 /\
  forall k, k ∈ (fold_left step mapNodes m).*1 <-> k ∈ m.*1 \/ k ∈ key <$> mapNodes.
Proof.
  induction mapNodes as [|node rest IH]; intros m Hnd; simpl fold_left.
  - split; [done|]. intros k. split; [by left|].
    intros [?|Hk]; [done|]. by apply elem_of_nil in Hk.
  - assert (NoDup (map_set m (key node)
                     (num_or (map_get m (key node)) 0 + 1)).*1) as Hnd'.
    { rewrite map_set_keys. destruct (decide (key node ∈ m.*1)); [done|].
      apply NoDup_app. split_and!; [done| |apply NoDup_singleton].
      by intros x Hx ->%list_elem_of_singleton. }
    destruct (IH _ Hnd') as [Hres Hkeys]. split; [done|].
    intros k. rewrite Hkeys, map_set_keys, fmap_cons, elem_of_cons.
    destruct (decide (key node ∈ m.*1)) as [Hin|Hnotin].
    + split; [intros [?|?]; eauto|]. intros [?|[ ->|?]]; eauto.
    + rewrite elem_of_app, list_elem_of_singleton.
      split; [intros [[?| ->]|?]; eauto|]. intros [?|[ ->|?]]; eauto.
Qed.

(** Every entry of the counting map is a key of some map node with the
    number of map nodes that have the key, and every key is there once. *)
Lemma countBy_entries mapNodes :
  NoDup (countBy key mapNodes).*1 /\
  (forall k v, (k, v) ∈ countBy key mapNodes ->
     v = Z.of_nat (length (filter (fun n => key n = k) mapNodes)) /\ 0 < v) /\
  (forall n, n ∈ mapNodes -> key n ∈ (countBy key mapNodes).*1).
Proof.
  unfold countBy.
  destruct (countBy_fold_keys mapNodes [] (NoDup_nil_2)) as [Hnd Hkeys].
  split; [done|]. split.
  - intros k v Hkv.
    pose proof (countBy_fold_get mapNodes [] k) as Hget.
    rewrite (map_get_elem _ _ _ Hnd Hkv) in Hget. simpl in Hget.
    split; [done|]. rewrite Hget.
    assert (k ∈ key <$> mapNodes) as (n & -> & Hn)%list_elem_of_fmap.
    { assert (k ∈ (fold_left step mapNodes []).*1) as Hk.
      { apply list_elem_of_fmap. by exists (k, v). }
      apply Hkeys in Hk as [Hk|Hk]; [by apply elem_of_nil in Hk|done]. }
    assert (n ∈ filter (fun n' => key n' = key n) mapNodes) as Hin
      by (by apply list_elem_of_filter).
    destruct (filter _ mapNodes); [by apply elem_of_nil in Hin|]. simpl. lia.
  - intros n Hn. apply Hkeys. right. apply list_elem_of_fmap. eauto.
Qed.
End CountFacts.

Lemma sort_insert_Permutation {A} (compareFn : A -> A -> Z) x l :
  sort_insert compareFn x l ≡ₚ x :: l.
Proof.
  induction l as [|y l IH]; simpl; [done|].
  destruct (compareFn x y <=? 0); [done|]. rewrite IH. apply perm_swap.
Qed.

(** Sorting moves entries and neither drops nor invents any. *)
Lemma js_sort_Permutation {A} (compareFn : A -> A -> Z) l :
  js_sort compareFn l ≡ₚ l.
Proof.
  induction l as [|x l IH]; simpl; [done|].
  by rewrite sort_insert_Permutation, IH.
Qed.

Lemma country_names m :
  cc_country <$> map (fun '(country, count) => mkCountryCount country count) m = m.*1.
Proof. induction m as [|[k v] m IH]; csimpl; [done|]. by f_equal. Qed.

Lemma region_names m :
  rc_region <$> map (fun '(region, count) => mkRegionCount region count) m = m.*1.
Proof. induction m as [|[k v] m IH]; csimpl; [done|]. by f_equal. Qed.

(** X21. In the summary every country of a map node is listed once,
    with the number of map nodes that have that country as its count,
    and no country is listed that no map node has; the same holds of
    the regions. *)
Theorem getGeoSummary_counts_each (mapNodes : list MapNode) :
  let summary := getGeoSummary mapNodes in
  NoDup (cc_country <$> countries summary) /\
  (forall e, e ∈ countries summary ->
     cc_count e
     = Z.of_nat (length (filter (fun n => country n = cc_country e) mapNodes)) /\
     0 < cc_count e) /\
  (forall n, n ∈ mapNodes -> country n ∈ cc_country <$> countries summary) /\
  NoDup (rc_region <$> regions summary) /\
  (forall e, e ∈ regions summary ->
     rc_count e
     = Z.of_nat (length (filter (fun n => region n = rc_region e) mapNodes)) /\
     0 < rc_count e) /\
  (forall n, n ∈ mapNodes -> region n ∈ rc_region <$> regions summary).
Proof.
  unfold getGeoSummary; simpl.
  destruct (countBy_entries country mapNodes) as (Hnd & Hcount & Hall).
  destruct (countBy_entries region mapNodes) as (Hnd' & Hcount' & Hall').
  split_and!.
  - by rewrite js_sort_Permutation, country_names.
  - intros e He. rewrite js_sort_Permutation in He.
    apply list_elem_of_In, in_map_iff in He as ([k v] & <- & Hkv).
    apply Hcount. by apply list_elem_of_In.
  - intros n Hn. rewrite js_sort_Permutation, country_names. by apply Hall.
  - by rewrite js_sort_Permutation, region_names.
  - intros e He. rewrite js_sort_Permutation in He.
    apply list_elem_of_In, in_map_iff in He as ([k v] & <- & Hkv).
    apply Hcount'. by apply list_elem_of_In.
  - intros n Hn. rewrite js_sort_Permutation, region_names. by apply Hall'.
Qed.

Section SummaryOfNodes.
Variable number : Type.
Variable geoOf : option string -> FetchError + option (GeoLocation number).

(** X22. The summary of what [getMapNodes] returns counts exactly the
    nodes whose geo lookup resolved: the counts per country add up to
    their number, and so do the counts per region; nodes without a
    location are in neither. *)
Theorem geo_summary_counts_resolved_nodes (nodes : list PNode) :
  let summary := getGeoSummary (getMapNodes number geoOf nodes) in
  let resolved :=
    filter (fun node => is_Some (mapNodeOf number geoOf node)) nodes in
  sumZ (cc_count <$> countries summary) = Z.of_nat (length resolved) /\
  sumZ (rc_count <$> regions summary) = Z.of_nat (length resolved) /\
  (length resolved <= length nodes)%nat.
Proof.
  simpl.
  assert (length (getMapNodes number geoOf nodes)
          = length (filter (fun node => is_Some (mapNodeOf number geoOf node)) nodes))
    as Hlen.
  { assert (getMapNodes number geoOf nodes = omap (mapNodeOf number geoOf) nodes)
      as ->.
    { unfold getMapNodes. destruct (100 <? length nodes)%nat eqn:Hbig; [|done].
      rewrite batchLoop_spec by (unfold BATCH_SIZE; lia). done. }
    induction nodes as [|node rest IH]; [done|]. csimpl. rewrite filter_cons.
    destruct (mapNodeOf number geoOf node) as [m|] eqn:Hm.
    - rewrite decide_True by eauto. csimpl. by rewrite IH.
    - rewrite decide_False by (by intros [? ?]). done. }
  unfold getGeoSummary; simpl. split_and!.
  - by rewrite (js_sort_sum cc_count), country_counts, countBy_sum, Hlen.
  - by rewrite (js_sort_sum rc_count), region_counts, countBy_sum, Hlen.
  - apply length_filter.
Qed.
End SummaryOfNodes.

(** 105 nodes go through the batched path: six batches, the last of
    five. *)
Example getMapNodes_105 :
  length (getMapNodes Z geoFrankfurt (replicate 105 nodeY_online)) = 105%nat /\
  countries (getGeoSummary (getMapNodes Z geoFrankfurt (replicate 105 nodeY_online)))
  = [mkCountryCount "Germany" 105].
Proof. by vm_compute. Qed.
